(** * Resumable uploads for Caddy: the upload lifecycle of [main.go]

    The handlers of [main.go] (upload creation on POST, offset retrieval on
    HEAD, upload appending on PATCH) are embedded as state-passing functions
    over a model of the two things they mutate: the upload directory
    [m.TmpDir] and the [http.ResponseWriter] of the request.

    Conventions of the embedding.
    - A Go value of type [error] is an [option error]; [None] is [nil].
    - A Go call returning [(v, err)] returns a [result]: [Ok v] or [Err e].
    - [int] and [int64] are [Z]; the only place where the width matters is
      [strconv.Atoi], which rejects what does not fit 64 bits.
    - [filepath.Join(m.TmpDir, name)] addresses the entry [name] of the
      upload directory, so the directory is a finite map from entry names to
      file contents.  Names are single path segments: the handlers obtain
      them from [uuid.NewString] or as the last ["/"]-separated segment of
      the URL path.  For the segments [""], ["."] and [".."] [Join] returns
      a directory ([m.TmpDir] or its parent), see [os.is_dir_name].
    - Requests are handled one at a time; the logger is not modelled. *)

From Stdlib Require Import ZArith String Ascii List DecimalString DecimalZ Lia.
From stdpp Require Import gmap strings list fin_maps.

Local Open Scope Z_scope.
Local Open Scope string_scope.

(** ** Go values *)

(** [errors.Is(err, os.ErrNotExist)] is all the code asks of an error.
    [ErrInvalid] is what the methods of a nil [*os.File] return; [ErrIO]
    stands for every other failure. *)
Inductive error : Type :=
  | ErrNotExist
  | ErrInvalid
  | ErrIO.

Definition is_not_exist (e : error) : bool :=
  match e with
  | ErrNotExist => true
  | ErrInvalid | ErrIO => false
  end.

Inductive result (A : Type) : Type :=
  | Ok (a : A)
  | Err (e : error).
Arguments Ok {A} a.
Arguments Err {A} e.

(** ** The state monad of a request *)

Section StateMonad.
Context {S : Type}.

Definition State (A : Type) : Type := S → A * S.

Definition ret {A} (a : A) : State A := λ s, (a, s).

Definition bind {A B} (c : State A) (k : A → State B) : State B :=
  λ s, let (a, s') := c s in k a s'.

Definition gets {A} (f : S → A) : State A := λ s, (f s, s).

Definition modify (f : S → S) : State unit := λ s, (tt, f s).
End StateMonad.
Arguments State S A : clear implicits.

Notation "'let*' x ':=' c 'in' k" := (bind c (λ x, k))
  (at level 10, x pattern, c at level 100, k at level 200).

(** ** package strings *)

Module strings.
(** [strings.HasSuffix(s, suffix)] *)
Definition HasSuffix (s suffix : string) : bool :=
  (String.length suffix <=? String.length s)%nat
  && String.eqb
       (substring (String.length s - String.length suffix)
                  (String.length suffix) s)
       suffix.

(** [strings.Split(s, sep)] for a separator of one byte: the pieces of [s]
    between the occurrences of [sep]; never empty, and [[""]] for [""]. *)
Fixpoint Split (s : string) (sep : ascii) : list string :=
  match s with
  | EmptyString => [EmptyString]
  | String c s' =>
      if Ascii.eqb c sep then EmptyString :: Split s' sep
      else match Split s' sep with
           | seg :: segs => String c seg :: segs
           | [] => [String c EmptyString]
           end
  end.
End strings.

(** ** package strconv *)

Module strconv.
Definition max_int : Z := 2 ^ 63 - 1.
Definition min_int : Z := - 2 ^ 63.

Definition digit (c : ascii) : option Z :=
  let n := Z.of_nat (nat_of_ascii c) in
  if (48 <=? n)%Z && (n <=? 57)%Z then Some (n - 48) else None.

(** The decimal value of a string of digits, most significant first. *)
Fixpoint digits (acc : Z) (s : string) : option Z :=
  match s with
  | EmptyString => Some acc
  | String c s' =>
      match digit c with
      | Some d => digits (10 * acc + d) s'
      | None => None
      end
  end.

(** [strconv.Atoi(s)] on a 64-bit platform: an optional sign, then one or
    more decimal digits and nothing else ([ErrSyntax] otherwise); the value
    has to fit [int] ([ErrRange] otherwise).  [None] stands for [err != nil],
    the only thing [getUploadOffset] looks at. *)
Definition Atoi (s : string) : option Z :=
  match s with
  | EmptyString => None
  | String c rest =>
      let '(neg, ds) :=
        if Ascii.eqb c "-" then (true, rest)
        else if Ascii.eqb c "+" then (false, rest)
        else (false, s) in
      match ds with
      | EmptyString => None
      | _ =>
          match digits 0 ds with
          | None => None
          | Some n =>
              let v := if neg then - n else n in
              if (min_int <=? v)%Z && (v <=? max_int)%Z then Some v else None
          end
      end
  end.

(** [strconv.FormatInt(i, 10)] *)
Definition FormatInt (i : Z) : string := NilZero.string_of_int (Z.to_int i).
End strconv.

(** ** The upload directory *)

(** The calls of package [os] that the handlers make. *)
Inductive fs_op : Type :=
  | OpOpen
  | OpWriteFile
  | OpStat
  | OpRemove.

(** What happened on the directory, oldest first.  A call is recorded
    whether it succeeds or not. *)
Inductive fs_event : Type :=
  | EvOpen (name : string)
  | EvWriteFile (name : string)
  | EvStat (name : string)
  | EvRemove (name : string)
  | EvSeek (name : string)
  | EvWrite (name : string) (n : nat)
  | EvClose (name : string).

(** [files]: the regular files of [m.TmpDir], by name.
    [faults op name]: the call [op] on [name] fails with an error that is not
    [os.ErrNotExist] (permissions, a failing device).
    [trace]: the calls made so far. *)
Record FS : Type := mkFS {
  files : gmap string (list Byte.byte);
  faults : fs_op → string → bool;
  trace : list fs_event
}.

(** An open file: the entry it was opened on and its position.  A Go
    variable of type [*os.File] is an [option File], [None] being [nil]; a
    method that moves the position returns the file again. *)
Record File : Type := mkFile {
  f_name : string;
  f_pos : nat
}.

(** ** The response *)

(** [header] is the map behind [w.Header()].
    [informational] lists the 1xx responses sent, each with the header it
    carried.  [status] is the status line once it is written, and
    [sent_header] the header that went out with it.  [body] is what the
    handler has handed to [w.Write]; the server leaves it out of the response
    to a HEAD. *)
Record ResponseWriter : Type := mkResponseWriter {
  header : gmap string string;
  informational : list (Z * gmap string string);
  status : option Z;
  sent_header : gmap string string;
  body : string
}.

(** ** The request *)

(** [r.Body] as [io.Copy] sees it: the bytes it transfers before it stops,
    and whether it stops on an error (of the reader or of the writer) rather
    than at the end of the body. *)
Record ReqBody : Type := mkReqBody {
  data : list Byte.byte;
  broken : bool
}.

(** The fields of [*http.Request] that the handlers read.  [Header] is keyed
    by canonical header names, as [net/http] stores them; [TLS] says whether
    [r.TLS != nil]. *)
Record Request : Type := mkRequest {
  Method : string;
  Host : string;
  Path : string;
  TLS : bool;
  Header : gmap string string;
  Body : ReqBody
}.

(** What a handler runs on. *)
Record World : Type := mkWorld {
  disk : FS;
  w : ResponseWriter
}.

Abbreviation M := (State World).

Definition on_disk (f : FS → FS) (s : World) : World :=
  {| disk := f (disk s); w := w s |}.

Definition on_w (f : ResponseWriter → ResponseWriter) (s : World) : World :=
  {| disk := disk s; w := f (w s) |}.

Definition record (ev : fs_event) (d : FS) : FS :=
  {| files := files d; faults := faults d; trace := trace d ++ [ev] |}.

Definition set_files (m : gmap string (list Byte.byte)) (d : FS) : FS :=
  {| files := m; faults := faults d; trace := trace d |}.

(** ** package os *)

Module os.
(** [filepath.Join(m.TmpDir, name)] is a directory for these [name]s. *)
Definition is_dir_name (name : string) : bool :=
  String.eqb name "" || String.eqb name "." || String.eqb name "..".

(** [os.OpenFile(filepath.Join(m.TmpDir, name), flag, 0o644)] where [flag]
    is [O_WRONLY], or [O_WRONLY|O_CREATE] when [create] is set.  Neither
    [O_EXCL] nor [O_TRUNC] nor [O_APPEND] is ever passed: an existing file
    is opened as it is, at position 0. *)
Definition OpenFile (name : string) (create : bool) : M (result File) :=
  let* _ := modify (on_disk (record (EvOpen name))) in
  let* d := gets disk in
  if faults d OpOpen name || is_dir_name name then ret (Err ErrIO)
  else match files d !! name with
       | Some _ => ret (Ok (mkFile name 0))
       | None =>
           if create then
             let* _ := modify (on_disk (set_files (<[name := []]> (files d)))) in
             ret (Ok (mkFile name 0))
           else ret (Err ErrNotExist)
       end.

(** [os.WriteFile(filepath.Join(m.TmpDir, name), content, 0o644)]: creates
    or truncates.  Only called on marker names, which are no directory. *)
Definition WriteFile (name : string) (content : list Byte.byte) : M (option error) :=
  let* _ := modify (on_disk (record (EvWriteFile name))) in
  let* d := gets disk in
  if faults d OpWriteFile name then ret (Some ErrIO)
  else
    let* _ := modify (on_disk (set_files (<[name := content]> (files d)))) in
    ret None.

(** [os.Stat(filepath.Join(m.TmpDir, name))], of which only the error is
    used. *)
Definition Stat (name : string) : M (option error) :=
  let* _ := modify (on_disk (record (EvStat name))) in
  let* d := gets disk in
  if faults d OpStat name then ret (Some ErrIO)
  else if is_dir_name name then ret None
  else match files d !! name with
       | Some _ => ret None
       | None => ret (Some ErrNotExist)
       end.

(** [os.Remove(filepath.Join(m.TmpDir, name))].  Only called on marker
    names. *)
Definition Remove (name : string) : M (option error) :=
  let* _ := modify (on_disk (record (EvRemove name))) in
  let* d := gets disk in
  if faults d OpRemove name then ret (Some ErrIO)
  else match files d !! name with
       | Some _ =>
           let* _ := modify (on_disk (set_files (delete name (files d)))) in
           ret None
       | None => ret (Some ErrNotExist)
       end.

(** [file.Seek(0, io.SeekEnd)]: moves to the end of the file and returns
    its length. *)
Definition SeekEnd (file : option File) : M (option File * Z * option error) :=
  match file with
  | None => ret (None, 0, Some ErrInvalid)
  | Some f =>
      let* _ := modify (on_disk (record (EvSeek (f_name f)))) in
      let* d := gets disk in
      match files d !! f_name f with
      | Some content =>
          ret (Some (mkFile (f_name f) (length content)),
               Z.of_nat (length content), None)
      | None => ret (file, 0, Some ErrIO)
      end
  end.

(** [file.Close()], whose error the handlers drop. *)
Definition Close (file : option File) : M unit :=
  match file with
  | None => ret tt
  | Some f => modify (on_disk (record (EvClose (f_name f))))
  end.
End os.

(** [defer file.Close()]: runs when the rest of the function has returned. *)
Definition defer_Close {A} (file : option File) (rest : M A) : M A :=
  let* a := rest in
  let* _ := os.Close file in
  ret a.

(** ** package io *)

Module io.
(** The content of a file after [bytes] are written at position [pos]:
    what lies under them is overwritten, a gap before them reads as zero. *)
Definition write_at (pos : nat) (bytes old : list Byte.byte) : list Byte.byte :=
  take pos old ++ replicate (pos - length old) Byte.x00
    ++ bytes ++ drop (pos + length bytes) old.

(** [io.Copy(file, r.Body)]: the bytes go to the file at its position,
    which advances; returns how many were written, and the error if the
    copy broke off. *)
Definition Copy (file : option File) (src : ReqBody) : M (option File * Z * option error) :=
  match file with
  | None => ret (None, 0, Some ErrInvalid)
  | Some f =>
      let n := length (data src) in
      let* _ := modify (on_disk (record (EvWrite (f_name f) n))) in
      let* d := gets disk in
      match files d !! f_name f with
      | Some old =>
          let* _ := modify (on_disk (set_files
                     (<[f_name f := write_at (f_pos f) (data src) old]> (files d)))) in
          ret (Some (mkFile (f_name f) (f_pos f + n)), Z.of_nat n,
               if broken src then Some ErrIO else None)
      | None => ret (file, 0, Some ErrIO)
      end
  end.
End io.

(** ** package net/http *)

Module http.
Definition StatusOK : Z := 200.
Definition StatusCreated : Z := 201.
Definition StatusNoContent : Z := 204.
Definition StatusBadRequest : Z := 400.
Definition StatusNotFound : Z := 404.
Definition StatusMethodNotAllowed : Z := 405.
Definition StatusConflict : Z := 409.
Definition StatusSwitchingProtocols : Z := 101.

(** [h.Get(key)] for a canonical [key]: the value, or [""]. *)
Definition Get (h : gmap string string) (key : string) : string :=
  default "" (h !! key).

(** [w.Header().Set(key, value)] *)
Definition Set_ (key value : string) : M unit :=
  modify (on_w (λ rw,
    {| header := <[key := value]> (header rw);
       informational := informational rw;
       status := status rw;
       sent_header := sent_header rw;
       body := body rw |})).

(** [w.Header().Del(key)] *)
Definition Del (key : string) : M unit :=
  modify (on_w (λ rw,
    {| header := delete key (header rw);
       informational := informational rw;
       status := status rw;
       sent_header := sent_header rw;
       body := body rw |})).

(** [w.WriteHeader(code)].  A 1xx code other than 101 sends an
    informational response with the current header and leaves the final
    status open.  Any other code is the status of the response; the header
    goes out with it, and later calls change nothing. *)
Definition WriteHeader (code : Z) : M unit :=
  modify (on_w (λ rw,
    match status rw with
    | Some _ => rw
    | None =>
        if (100 <=? code)%Z && (code <=? 199)%Z
           && negb (code =? StatusSwitchingProtocols)%Z
        then {| header := header rw;
                informational := informational rw ++ [(code, header rw)];
                status := None;
                sent_header := sent_header rw;
                body := body rw |}
        else {| header := header rw;
                informational := informational rw;
                status := Some code;
                sent_header := header rw;
                body := body rw |}
    end)).

(** [w.Write(p)]: writes the status 200 first if none is written yet. *)
Definition Write (p : string) : M unit :=
  let* _ := WriteHeader StatusOK in
  modify (on_w (λ rw,
    {| header := header rw;
       informational := informational rw;
       status := status rw;
       sent_header := sent_header rw;
       body := body rw +:+ p |})).

(** What the server does when a handler has returned [nil] without a
    status: it answers 200 with the header as it stands. *)
Definition finishRequest : M unit := WriteHeader StatusOK.
End http.

(** ** main.go *)

Definition InteropVersion : string := "4".
Definition IncompleteExt : string := ".incomplete".

(** The line feed that ends the bodies of the error responses. *)
Definition LF : string := String (ascii_of_nat 10) EmptyString.

Definition getUrl (r : Request) : string :=
  let protocol := if TLS r then "https" else "http" in
  let path := if strings.HasSuffix (Path r) "/" then Path r else Path r +:+ "/" in
  protocol +:+ "://" +:+ Host r +:+ path.

Definition getUploadOffset (r : Request) : Z * bool :=
  match strconv.Atoi (http.Get (Header r) "Upload-Offset") with
  | None => (0, false)
  | Some offset => (offset, true)
  end.

Definition getUploadComplete (r : Request) : bool :=
  if String.eqb (http.Get (Header r) "Upload-Complete") "?1" then true else false.

Definition setUploadHeaders (isComplete : bool) (offset : Z) : M unit :=
  let* _ := (if isComplete then http.Set_ "Upload-Complete" "?1"
             else http.Set_ "Upload-Complete" "?0") in
  http.Set_ "Upload-Offset" (strconv.FormatInt offset).

(** Returns [(file, exists, isComplete, offset, err)]; a result that the Go
    function has not assigned when it returns holds its zero value. *)
Definition loadUpload (id : string)
    : M (option File * bool * bool * Z * option error) :=
  let* o := os.OpenFile id false in
  match o with
  | Err e =>
      if is_not_exist e then ret (None, false, false, 0, None)
      else ret (None, false, false, 0, Some e)
  | Ok f =>
      let file := Some f in
      let exists_ := true in
      let* (file, offset, err) := os.SeekEnd file in
      match err with
      | Some e => ret (file, exists_, false, offset, Some e)
      | None =>
          let* err := os.Stat (id +:+ IncompleteExt) in
          match err with
          | Some e =>
              if is_not_exist e then ret (file, exists_, true, offset, None)
              else ret (file, exists_, false, offset, Some e)
          | None => ret (file, exists_, false, offset, None)
          end
      end
  end.

(** [uploadId] is the value that [uuid.NewString()] returns in this call. *)
Definition UploadCreationHandler (uploadId : string) (r : Request) : M (option error) :=
  let* o := os.OpenFile uploadId true in
  match o with
  | Err e => ret (Some e)
  | Ok f =>
      let file := Some f in
      defer_Close file (
        let* err := os.WriteFile (uploadId +:+ IncompleteExt) [] in
        match err with
        | Some e => ret (Some e)
        | None =>
            let uploadUrl := getUrl r +:+ uploadId in
            let* _ := http.Set_ "Location" uploadUrl in
            let* _ :=
              (if String.eqb (http.Get (Header r) "Upload-Draft-Interop-Version")
                             InteropVersion
               then
                 let* _ := http.Set_ "Upload-Draft-Interop-Version" InteropVersion in
                 let* _ := http.WriteHeader 104 in
                 http.Del "Upload-Draft-Interop-Version"
               else ret tt) in
            let* (file, _, err) := io.Copy file (Body r) in
            match err with
            | Some e => ret (Some e)
            | None =>
                let* (file, offset, err) := os.SeekEnd file in
                match err with
                | Some e => ret (Some e)
                | None =>
                    let isComplete := getUploadComplete r in
                    let* err :=
                      (if isComplete then os.Remove (uploadId +:+ IncompleteExt)
                       else ret None) in
                    match err with
                    | Some e => ret (Some e)
                    | None =>
                        let* _ := setUploadHeaders isComplete offset in
                        ret None
                    end
                end
            end
        end)
  end.

Definition OffsetRetrievingHandler (r : Request) : M (option error) :=
  let segments := strings.Split (Path r) "/" in
  let id := List.last segments "" in
  let* (file, exists_, isComplete, offset, err) := loadUpload id in
  match err with
  | Some e => ret (Some e)
  | None =>
      if negb exists_ then
        let* _ := http.WriteHeader http.StatusNotFound in
        let* _ := http.Write ("upload not found" +:+ LF) in
        ret None
      else
        defer_Close file (
          let* _ := setUploadHeaders isComplete offset in
          let* _ := http.WriteHeader http.StatusNoContent in
          ret None)
  end.

Definition UploadAppendingHandler (r : Request) : M (option error) :=
  let segments := strings.Split (Path r) "/" in
  let id := List.last segments "" in
  let* (file, exists_, complete_server, offset_server, err) := loadUpload id in
  match err with
  | Some e => ret (Some e)
  | None =>
      if negb exists_ then
        let* _ := http.WriteHeader http.StatusNotFound in
        let* _ := http.Write ("upload not found" +:+ LF) in
        ret None
      else
        defer_Close file (
          let complete_client := negb (getUploadComplete r) in
          let '(offset_client, ok) := getUploadOffset r in
          if negb ok then
            let* _ := http.WriteHeader http.StatusBadRequest in
            let* _ := http.Write ("invalid or missing Upload-Offset header" +:+ LF) in
            ret None
          else if negb (offset_server =? offset_client)%Z then
            let* _ := setUploadHeaders complete_server offset_server in
            let* _ := http.WriteHeader http.StatusConflict in
            let* _ := http.Write ("mismatching Upload-Offset value" +:+ LF) in
            ret None
          else if complete_server then
            let* _ := setUploadHeaders complete_server offset_server in
            let* _ := http.WriteHeader http.StatusOK in
            let* _ := http.Write ("upload is already complete" +:+ LF) in
            ret None
          else
            let* (file, n, err) := io.Copy file (Body r) in
            match err with
            | Some e => ret (Some e)
            | None =>
                let offset_server := offset_server + n in
                let* (complete_server, err) :=
                  (if complete_client then
                     let* err := os.Remove (id +:+ IncompleteExt) in
                     ret (true, err)
                   else ret (complete_server, None)) in
                match err with
                | Some e => ret (Some e)
                | None =>
                    let* _ := setUploadHeaders complete_server offset_server in
                    let* _ := http.WriteHeader http.StatusCreated in
                    ret None
                end
            end)
  end.

(** [uploadId] is handed to [UploadCreationHandler]; [next] is never called. *)
Definition ServeHTTP (uploadId : string) (r : Request) : M (option error) :=
  let* _ := http.Set_ "Access-Control-Allow-Origin" "*" in
  let* _ := http.Set_ "Access-Control-Allow-Methods" "POST, PATCH, HEAD, DELETE" in
  let* _ := http.Set_ "Access-Control-Allow-Headers" "*" in
  let* _ := http.Set_ "Access-Control-Expose-Headers"
              "Upload-Draft-Interop-Version, Upload-Offset, Upload-Complete, Location" in
  if String.eqb (Method r) "OPTIONS" then
    let* _ := http.WriteHeader http.StatusOK in
    ret None
  else if String.eqb (Method r) "POST" then UploadCreationHandler uploadId r
  else if String.eqb (Method r) "HEAD" then OffsetRetrievingHandler r
  else if String.eqb (Method r) "PATCH" then UploadAppendingHandler r
  else
    let* _ := http.WriteHeader http.StatusMethodNotAllowed in
    ret None.

(** ** Reading the model *)

(** The upload that a HEAD or PATCH request addresses. *)
Definition request_id (r : Request) : string :=
  List.last (strings.Split (Path r) "/") "".

(** The name of the marker of upload [id]. *)
Definition marker (id : string) : string := id +:+ IncompleteExt.

(** Whether the marker of [id] is present. *)
Definition incomplete (d : FS) (id : string) : bool :=
  match files d !! marker id with
  | Some _ => true
  | None => false
  end.

(** The calls of [loadUpload id] meet no storage failure. *)
Definition load_ok (d : FS) (id : string) : Prop :=
  os.is_dir_name id = false
  ∧ faults d OpOpen id = false
  ∧ faults d OpStat (marker id) = false.

(** The response writer that a request starts with. *)
Definition new_response : ResponseWriter :=
  {| header := ∅; informational := []; status := None; sent_header := ∅; body := "" |}.

(** The outcomes of an append, as the status of the response shows them. *)
Inductive outcome : Type :=
  | NotFound
  | ValidationError
  | OffsetConflict
  | AlreadyComplete
  | Appended.

Definition append_outcome (rw : ResponseWriter) : option outcome :=
  match status rw with
  | Some code =>
      if (code =? http.StatusNotFound)%Z then Some NotFound
      else if (code =? http.StatusBadRequest)%Z then Some ValidationError
      else if (code =? http.StatusConflict)%Z then Some OffsetConflict
      else if (code =? http.StatusOK)%Z then Some AlreadyComplete
      else if (code =? http.StatusCreated)%Z then Some Appended
      else None
  | None => None
  end.

(** The order in which the specification evaluates the outcomes of
    [AppendUpload(id, clientOffset, ...)]: the first that matches wins. *)
Definition AppendUpload_outcome_spec (d : FS) (id : string) (clientOffset : Z) : outcome :=
  match files d !! id with
  | None => NotFound
  | Some stored =>
      if negb (clientOffset =? Z.of_nat (length stored))%Z then OffsetConflict
      else if negb (incomplete d id) then AlreadyComplete
      else Appended
  end.


(** The outcome of an append to an upload that is complete and holds
    [stored_length] bytes, by the header of the request. *)
Definition append_outcome_when_complete (stored_length : Z) (r : Request) : outcome :=
  match getUploadOffset r with
  | (offset_client, true) =>
      if (offset_client =? stored_length)%Z then AlreadyComplete else OffsetConflict
  | (_, false) => ValidationError
  end.

(** The PATCH requests [rs] served one after the other, each with a response
    writer of its own: the responses, and the directory they leave. *)
Fixpoint serve_appends (rs : list Request) (d : FS) : list ResponseWriter * FS :=
  match rs with
  | [] => ([], d)
  | r :: rs' =>
      let '(_, s') := UploadAppendingHandler r {| disk := d; w := new_response |} in
      let '(rws, d') := serve_appends rs' (disk s') in
      (w s' :: rws, d')
  end.

(** The header after [setUploadHeaders(w, isComplete, offset)]. *)
Definition upload_headers (isComplete : bool) (offset : Z) (h : gmap string string)
    : gmap string string :=
  <["Upload-Offset" := strconv.FormatInt offset]>
    (<["Upload-Complete" := if isComplete then "?1" else "?0"]> h).

(** A response that went out with status [code], header [h] and body [text]. *)
Definition answered (code : Z) (h : gmap string string) (text : string)
    (rw : ResponseWriter) : ResponseWriter :=
  {| header := h; informational := informational rw; status := Some code;
     sent_header := h; body := text |}.

(** The directory after the calls [evs]. *)
Definition traced (evs : list fs_event) (d : FS) : FS :=
  {| files := files d; faults := faults d; trace := trace d ++ evs |}.

(** The class of a status code: its first digit. *)
Definition status_class (code : Z) : Z := code / 100.

(** The calls of [UploadCreationHandler] for [id] and [r] meet no failure. *)
Definition create_ok (d : FS) (id : string) (r : Request) : Prop :=
  os.is_dir_name id = false
  ∧ faults d OpOpen id = false
  ∧ faults d OpWriteFile (marker id) = false
  ∧ broken (Body r) = false
  ∧ (getUploadComplete r = true → faults d OpRemove (marker id) = false).

(** The client declared the interop version of the server. *)
Definition interop (r : Request) : bool :=
  String.eqb (http.Get (Header r) "Upload-Draft-Interop-Version") InteropVersion.

(** The content of upload [id] once [UploadCreationHandler] has copied the
    body of [r] into it. *)
Definition created_content (d : FS) (id : string) (r : Request) : list Byte.byte :=
  io.write_at 0 (data (Body r)) (default [] (files d !! id)).

Definition created_files (d : FS) (id : string) (r : Request)
    : gmap string (list Byte.byte) :=
  let copied := <[id := created_content d id r]> (<[marker id := []]> (files d)) in
  if getUploadComplete r then delete (marker id) copied else copied.

Definition created_header (d : FS) (id : string) (r : Request) (h : gmap string string)
    : gmap string string :=
  let located := <["Location" := getUrl r +:+ id]> h in
  upload_headers (getUploadComplete r) (Z.of_nat (length (created_content d id r)))
    (if interop r
     then delete "Upload-Draft-Interop-Version"
            (<["Upload-Draft-Interop-Version" := InteropVersion]> located)
     else located).

(** The header once [ServeHTTP] has set the CORS fields. *)
Definition cors_header (h : gmap string string) : gmap string string :=
  <["Access-Control-Expose-Headers" :=
      "Upload-Draft-Interop-Version, Upload-Offset, Upload-Complete, Location"]>
    (<["Access-Control-Allow-Headers" := "*"]>
       (<["Access-Control-Allow-Methods" := "POST, PATCH, HEAD, DELETE"]>
          (<["Access-Control-Allow-Origin" := "*"]> h))).

Definition with_cors (s : World) : World :=
  {| disk := disk s;
     w := {| header := cors_header (header (w s));
             informational := informational (w s);
             status := status (w s);
             sent_header := sent_header (w s);
             body := body (w s) |} |}.

(** [s] is a minus sign followed by one or more decimal digits, and the
    integer that it denotes is [v], below zero.  Read with the decimal
    numerals of the standard library, not with [strconv]. *)
Definition negative_integer_string (s : string) (v : Z) : Prop :=
  ∃ d, NilZero.int_of_string s = Some (Decimal.Neg d)
       ∧ Z.of_int (Decimal.Neg d) = v
       ∧ v < 0.

(** ** Concrete uploads and requests *)

Definition abc : list Byte.byte := [Byte.x61; Byte.x62; Byte.x63].
Definition xy : list Byte.byte := [Byte.x78; Byte.x79].

Definition no_faults : fs_op → string → bool := λ _ _, false.

(** A directory that holds the upload ["u1"] with [content], complete or not. *)
Definition disk_u1 (complete : bool) (content : list Byte.byte) : FS :=
  {| files := if complete then {[ "u1" := content ]}
              else <[ "u1" := content ]> {[ "u1.incomplete" := [] ]};
     faults := no_faults;
     trace := [] |}.

Definition world_u1 (complete : bool) (content : list Byte.byte) : World :=
  {| disk := disk_u1 complete content; w := new_response |}.

Definition empty_world : World :=
  {| disk := {| files := ∅; faults := no_faults; trace := [] |}; w := new_response |}.

(** [PATCH /files/u1] with the header fields [fields] and the body [bytes]. *)
Definition patch_u1 (fields : list (string * string)) (bytes : list Byte.byte) : Request :=
  {| Method := "PATCH"; Host := "example.org"; Path := "/files/u1"; TLS := false;
     Header := list_to_map fields;
     Body := {| data := bytes; broken := false |} |}.

(** [POST /files] with the header fields [fields] and the body [bytes]. *)
Definition post_files (fields : list (string * string)) (bytes : list Byte.byte) : Request :=
  {| Method := "POST"; Host := "example.org"; Path := "/files"; TLS := false;
     Header := list_to_map fields;
     Body := {| data := bytes; broken := false |} |}.

(** ** Invariants and what the next request sees *)

(** The computation [c] keeps the invariant [I] of the state. *)
Definition keeps {A} (I : World → Prop) (c : M A) : Prop :=
  ∀ s, I s → I (c s).2.

(** [I] looks at the directory only, or at the response only. *)
Definition of_disk (I : World → Prop) : Prop :=
  ∀ s s', disk s' = disk s → I s → I s'.

Definition of_w (I : World → Prop) : Prop :=
  ∀ s s', w s' = w s → I s → I s'.

(** The header [h] holds the four CORS fields that [ServeHTTP] sets. *)
Definition has_cors (h : gmap string string) : Prop :=
  h !! "Access-Control-Allow-Origin" = Some "*"
  ∧ h !! "Access-Control-Allow-Methods" = Some "POST, PATCH, HEAD, DELETE"
  ∧ h !! "Access-Control-Allow-Headers" = Some "*"
  ∧ h !! "Access-Control-Expose-Headers"
    = Some "Upload-Draft-Interop-Version, Upload-Offset, Upload-Complete, Location".

(** The fields that the handlers themselves set or delete. *)
Definition upload_field (key : string) : bool :=
  String.eqb key "Location"
  || String.eqb key "Upload-Offset"
  || String.eqb key "Upload-Complete"
  || String.eqb key "Upload-Draft-Interop-Version".

(** The CORS fields are in the header, and in the header that went out if a
    status is written. *)
Definition cors_kept (s : World) : Prop :=
  has_cors (header (w s))
  ∧ (status (w s) ≠ None → has_cors (sent_header (w s))).

(** The state in which the request after the one that left [s] starts: the
    directory as it is, and a response writer of its own. *)
Definition next_request (s : World) : World :=
  {| disk := disk s; w := new_response |}.

(** [s] holds no ["/"]. *)
Fixpoint no_slash (s : string) : bool :=
  match s with
  | EmptyString => true
  | String c s' => negb (Ascii.eqb c "/") && no_slash s'
  end.

(** [HEAD /files/u1] *)
Definition head_u1 : Request :=
  {| Method := "HEAD"; Host := "example.org"; Path := "/files/u1"; TLS := false;
     Header := ∅;
     Body := {| data := []; broken := false |} |}.

(** A directory that holds ["u1"] as [disk_u1] does, on which the calls
    [failing] fail. *)
Definition faulty_disk_u1 (complete : bool) (content : list Byte.byte)
    (failing : fs_op → string → bool) : FS :=
  {| files := files (disk_u1 complete content); faults := failing; trace := [] |}.


(** * Properties *)

(** ** The model on small inputs *)

Example Atoi_42 : strconv.Atoi "42" = Some 42.
Proof. reflexivity. Qed.

Example Atoi_plus : strconv.Atoi "+7" = Some 7.
Proof. reflexivity. Qed.

Example Atoi_minus_1 : strconv.Atoi "-1" = Some (-1).
Proof. reflexivity. Qed.

Example Atoi_empty : strconv.Atoi "" = None.
Proof. reflexivity. Qed.

Example Atoi_sign_only : strconv.Atoi "-" = None.
Proof. reflexivity. Qed.

Example Atoi_junk : strconv.Atoi "12a" = None.
Proof. reflexivity. Qed.

Example Atoi_max : strconv.Atoi "9223372036854775807" = Some (2 ^ 63 - 1).
Proof. reflexivity. Qed.

Example Atoi_over : strconv.Atoi "9223372036854775808" = None.
Proof. reflexivity. Qed.

Example FormatInt_3 : strconv.FormatInt 3 = "3".
Proof. reflexivity. Qed.

Example Split_path : strings.Split "/files/abc" "/" = [""; "files"; "abc"].
Proof. reflexivity. Qed.

Example Split_trailing : strings.Split "/files/" "/" = [""; "files"; ""].
Proof. reflexivity. Qed.

Example request_id_u1 : request_id (patch_u1 [] []) = "u1".
Proof. reflexivity. Qed.

Example getUrl_post : getUrl (post_files [] []) = "http://example.org/files/".
Proof. reflexivity. Qed.

Example write_at_over : io.write_at 0 xy abc = [Byte.x78; Byte.x79; Byte.x63].
Proof. reflexivity. Qed.

(** The first step of the scenario of the specification: a creation with an
    empty body and no completion signal. *)
Example scenario_create :
  let s := (UploadCreationHandler "u1" (post_files [] []) empty_world).2 in
  files (disk s) = files (disk_u1 false [])
  ∧ header (w s) !! "Upload-Offset" = Some "0"
  ∧ header (w s) !! "Upload-Complete" = Some "?0".
Proof. vm_compute. done. Qed.

(** ** Names, bytes and the state monad *)

Lemma bind_run {S A B} (c : State S A) (k : A → State S B) s a s' :
  c s = (a, s') → bind c k s = k a s'.
Proof. intros E. unfold bind. by rewrite E. Qed.

Lemma string_length_app (a b : string) :
  String.length (a +:+ b) = (String.length a + String.length b)%nat.
Proof. induction a as [|c a IH]; simpl; [done | by rewrite IH]. Qed.

Lemma marker_length id : String.length (marker id) = (String.length id + 11)%nat.
Proof. unfold marker. by rewrite string_length_app. Qed.

Lemma marker_neq id : marker id ≠ id.
Proof. intros E. pose proof (marker_length id) as L. rewrite E in L. lia. Qed.

Lemma marker_not_dir id : os.is_dir_name (marker id) = false.
Proof.
  destruct (os.is_dir_name (marker id)) eqn:E; [|done].
  unfold os.is_dir_name in E.
  pose proof (marker_length id) as L.
  repeat (apply orb_prop in E as [E|E]);
    apply String.eqb_eq in E; rewrite E in L; simpl in L; lia.
Qed.

Lemma write_at_end (bytes old : list Byte.byte) :
  io.write_at (length old) bytes old = (old ++ bytes)%list.
Proof.
  unfold io.write_at.
  rewrite firstn_all, Nat.sub_diag, drop_ge by lia. cbn.
  by rewrite app_nil_r.
Qed.

Lemma write_at_start (bytes old : list Byte.byte) :
  io.write_at 0 bytes old = (bytes ++ drop (length bytes) old)%list.
Proof. reflexivity. Qed.

Lemma write_at_start_empty (bytes : list Byte.byte) : io.write_at 0 bytes [] = bytes.
Proof. rewrite write_at_start, drop_nil. apply app_nil_r. Qed.

Lemma incomplete_true d id :
  incomplete d id = true → ∃ m, files d !! marker id = Some m.
Proof. unfold incomplete. destruct (files d !! marker id); [eauto | done]. Qed.

Lemma incomplete_false d id :
  incomplete d id = false ↔ files d !! marker id = None.
Proof. unfold incomplete. by destruct (files d !! marker id). Qed.

Arguments io.write_at : simpl never.

(** Unfolds the calls of a handler down to the state they act on. *)
Ltac run :=
  unfold defer_Close, setUploadHeaders, http.finishRequest, http.Write,
    http.WriteHeader, http.Set_, http.Del, os.Close, os.Remove, os.WriteFile,
    os.OpenFile, os.SeekEnd, os.Stat, io.Copy, bind, ret, modify, gets, on_w,
    on_disk, record, set_files;
  cbn.

(** Closes the equation between the state a handler leaves and its
    description. *)
Ltac world_eq :=
  unfold answered, traced, upload_headers; cbn;
  rewrite <- ?app_assoc, ?app_nil_r; cbn; reflexivity.

(** ** loadUpload *)

Lemma loadUpload_absent s id :
  files (disk s) !! id = None →
  os.is_dir_name id = false →
  faults (disk s) OpOpen id = false →
  loadUpload id s = ((None, false, false, 0, None), on_disk (traced [EvOpen id]) s).
Proof.
  intros Hf Hd Ho. unfold loadUpload. run. rewrite Ho, Hd, Hf. reflexivity.
Qed.

Lemma loadUpload_present s id stored :
  files (disk s) !! id = Some stored →
  load_ok (disk s) id →
  loadUpload id s =
    ((Some (mkFile id (length stored)), true, negb (incomplete (disk s) id),
      Z.of_nat (length stored), None),
     on_disk (traced [EvOpen id; EvSeek id; EvStat (marker id)]) s).
Proof.
  intros Hf (Hd & Ho & Hs). unfold loadUpload. run.
  rewrite Ho, Hd, Hf. cbn. rewrite Hf. cbn. fold (marker id).
  rewrite Hs, marker_not_dir. unfold incomplete.
  destruct (files (disk s) !! marker id); cbn; unfold on_disk; world_eq.
Qed.

(** C8.  When the byte storage of [id] is present, [loadUpload] succeeds
    exactly when its calls meet no storage failure, and then it reports that
    the upload exists, the length of the stored bytes as the offset, and the
    upload as complete if and only if the marker of [id] is absent; it changes
    no file. *)
Theorem loadUpload_reports_store s id stored :
  files (disk s) !! id = Some stored →
  let '(file, exists_, isComplete, offset, err, s') := loadUpload id s in
  (err = None ↔ load_ok (disk s) id)
  ∧ (err = None →
       exists_ = true
       ∧ offset = Z.of_nat (length stored)
       ∧ (isComplete = true ↔ files (disk s) !! marker id = None)
       ∧ (isComplete = false ↔ is_Some (files (disk s) !! marker id))
       ∧ files (disk s') = files (disk s)).
Proof.
  intros Hf.
  destruct (os.is_dir_name id) eqn:Hd.
  { unfold loadUpload, load_ok. run. rewrite Hd, orb_true_r. cbn.
    split; [|done]. split; [done|]. by intros (? & _). }
  destruct (faults (disk s) OpOpen id) eqn:Ho.
  { unfold loadUpload, load_ok. run. rewrite Ho. cbn.
    split; [|done]. split; [done|]. by intros (_ & ? & _). }
  destruct (faults (disk s) OpStat (marker id)) eqn:Hs.
  { unfold loadUpload, load_ok. run.
    rewrite Ho, Hd, Hf. cbn. rewrite Hf. cbn. fold (marker id). rewrite Hs. cbn.
    split; [|done]. split; [done|]. by intros (_ & _ & ?). }
  rewrite (loadUpload_present s id stored) by done.
  split; [done|]. intros _. unfold incomplete.
  destruct (files (disk s) !! marker id) eqn:Hm; cbn;
    repeat split; try done; try (by eexists); try (by intros [? ?]).
Qed.

Lemma loadUpload_reports_store_witness :
  let '(file, exists_, isComplete, offset, err, s') :=
    loadUpload "u1" (world_u1 false abc) in
  err = None ∧ exists_ = true ∧ offset = 3 ∧ isComplete = false.
Proof.
  pose proof (loadUpload_reports_store (world_u1 false abc) "u1" abc eq_refl) as H.
  destruct (loadUpload "u1" (world_u1 false abc))
    as [[[[[file exists_] isComplete] offset] err] s'].
  destruct H as [H1 H2].
  assert (err = None) as -> by (apply H1; repeat split).
  destruct (H2 eq_refl) as (-> & -> & _ & H3 & _).
  repeat split. apply H3. by eexists.
Defined.

(** ** UploadAppendingHandler, branch by branch *)

Section Append.
Variables (s : World) (r : Request).
Let id := request_id r.
Hypothesis Hfresh : status (w s) = None.

Lemma append_run_not_found :
  files (disk s) !! id = None →
  os.is_dir_name id = false →
  faults (disk s) OpOpen id = false →
  UploadAppendingHandler r s =
    (None,
     {| disk := traced [EvOpen id] (disk s);
        w := answered http.StatusNotFound (header (w s))
               (body (w s) +:+ "upload not found" +:+ LF) (w s) |}).
Proof.
  intros Hf Hd Ho. unfold UploadAppendingHandler. fold (request_id r). fold id.
  rewrite (bind_run _ _ _ _ _ (loadUpload_absent s id Hf Hd Ho)).
  destruct s as [d rw]. cbn in Hfresh. run. rewrite Hfresh. cbn. world_eq.
Qed.

Section Present.
Variable stored : list Byte.byte.
Hypothesis Hstored : files (disk s) !! id = Some stored.
Hypothesis Hok : load_ok (disk s) id.

Let loaded := [EvOpen id; EvSeek id; EvStat (marker id)].
Let server_complete := negb (incomplete (disk s) id).
Let server_offset := Z.of_nat (length stored).

Ltac start :=
  unfold UploadAppendingHandler; fold (request_id r); fold id;
  rewrite (bind_run _ _ _ _ _ (loadUpload_present s id stored Hstored Hok));
  subst loaded server_complete server_offset; cbn [negb].

Lemma append_run_invalid :
  (getUploadOffset r).2 = false →
  UploadAppendingHandler r s =
    (None,
     {| disk := traced (loaded ++ [EvClose id]) (disk s);
        w := answered http.StatusBadRequest (header (w s))
               (body (w s) +:+ "invalid or missing Upload-Offset header" +:+ LF)
               (w s) |}).
Proof.
  intros Hc. start.
  destruct (getUploadOffset r) as [c ok]. cbn in Hc. subst ok. cbn [negb].
  destruct s as [d rw]. cbn in Hfresh. run. rewrite Hfresh. cbn. world_eq.
Qed.

Lemma append_run_conflict c :
  getUploadOffset r = (c, true) →
  c ≠ server_offset →
  UploadAppendingHandler r s =
    (None,
     {| disk := traced (loaded ++ [EvClose id]) (disk s);
        w := answered http.StatusConflict
               (upload_headers server_complete server_offset (header (w s)))
               (body (w s) +:+ "mismatching Upload-Offset value" +:+ LF) (w s) |}).
Proof.
  intros Hc Hne. start. rewrite Hc.
  assert ((Z.of_nat (length stored) =? c)%Z = false) as -> by lia.
  cbn [negb].
  destruct s as [d rw]. cbn in Hfresh. run.
  destruct (incomplete d id); cbn; rewrite Hfresh; cbn; world_eq.
Qed.

Lemma append_run_complete :
  getUploadOffset r = (server_offset, true) →
  incomplete (disk s) id = false →
  UploadAppendingHandler r s =
    (None,
     {| disk := traced (loaded ++ [EvClose id]) (disk s);
        w := answered http.StatusOK
               (upload_headers true server_offset (header (w s)))
               (body (w s) +:+ "upload is already complete" +:+ LF) (w s) |}).
Proof.
  intros Hc Hi. start. rewrite Hc, Z.eqb_refl, Hi. cbn [negb].
  destruct s as [d rw]. cbn in Hfresh. run. rewrite Hfresh. cbn. world_eq.
Qed.

(** The branch that copies the body.  Whether the marker goes, and what
    [Upload-Complete] says, follows [complete_client], which line 211 of
    [main.go] sets to the negation of what the client signals. *)
Lemma append_run_appended :
  getUploadOffset r = (server_offset, true) →
  incomplete (disk s) id = true →
  broken (Body r) = false →
  faults (disk s) OpRemove (marker id) = false →
  let complete_client := negb (getUploadComplete r) in
  let n := length (data (Body r)) in
  let written := <[id := (stored ++ data (Body r))%list]> (files (disk s)) in
  UploadAppendingHandler r s =
    (None,
     {| disk :=
          traced (loaded ++ [EvWrite id n]
                    ++ (if complete_client then [EvRemove (marker id)] else [])
                    ++ [EvClose id])
            (set_files (if complete_client then delete (marker id) written else written)
                       (disk s));
        w := answered http.StatusCreated
               (upload_headers complete_client (server_offset + Z.of_nat n) (header (w s)))
               (body (w s)) (w s) |}).
Proof.
  intros Hc Hi Hb Hr complete_client n written.
  start. rewrite Hc, Z.eqb_refl, Hi. cbn [negb]. fold complete_client.
  destruct (incomplete_true _ _ Hi) as [m Hm].
  destruct s as [d rw]. cbn in *. run. rewrite Hstored, Hb. cbn.
  rewrite write_at_end. subst written n. fold (marker id).
  destruct complete_client; cbn.
  - rewrite Hr, lookup_insert_ne, Hm by (symmetry; apply marker_neq).
    cbn. rewrite Hfresh. world_eq.
  - rewrite Hfresh. world_eq.
Qed.
End Present.
End Append.

(** In the copying branch the upload ends up complete exactly when the client
    did not send [Upload-Complete: ?1]. *)
Lemma appended_completion s r stored :
  let id := request_id r in
  status (w s) = None →
  files (disk s) !! id = Some stored →
  load_ok (disk s) id →
  getUploadOffset r = (Z.of_nat (length stored), true) →
  incomplete (disk s) id = true →
  broken (Body r) = false →
  faults (disk s) OpRemove (marker id) = false →
  let s' := (UploadAppendingHandler r s).2 in
  append_outcome (w s') = Some Appended
  ∧ incomplete (disk s') id = getUploadComplete r
  ∧ sent_header (w s') !! "Upload-Complete"
    = Some (if getUploadComplete r then "?0" else "?1").
Proof.
  intros id Hfresh Hf Hok Hc Hi Hb Hr.
  destruct (incomplete_true _ _ Hi) as [m Hm].
  pose proof (marker_neq id) as Hne.
  rewrite (append_run_appended s r Hfresh stored Hf Hok Hc Hi Hb Hr). cbn.
  split; [done|]. unfold incomplete, upload_headers. cbn. fold id.
  destruct (getUploadComplete r); cbn.
  - rewrite lookup_insert_ne, Hm by done. split; [done|].
    by rewrite lookup_insert_ne, lookup_insert_eq.
  - rewrite lookup_delete_eq. split; [done|].
    by rewrite lookup_insert_ne, lookup_insert_eq.
Qed.

(** C1.  On an empty, incomplete upload, a PATCH at offset 0 that carries
    [Upload-Complete: ?1] is appended but leaves the marker in place and
    answers [Upload-Complete: ?0]; the same PATCH without the field removes
    the marker and answers [Upload-Complete: ?1]. *)
Theorem append_inverts_completion_signal :
  let signalled :=
    UploadAppendingHandler
      (patch_u1 [("Upload-Offset", "0"); ("Upload-Complete", "?1")] abc)
      (world_u1 false []) in
  let silent :=
    UploadAppendingHandler (patch_u1 [("Upload-Offset", "0")] abc) (world_u1 false []) in
  (signalled.1 = None
   ∧ append_outcome (w signalled.2) = Some Appended
   ∧ files (disk signalled.2) !! "u1" = Some abc
   ∧ sent_header (w signalled.2) !! "Upload-Complete" = Some "?0"
   ∧ incomplete (disk signalled.2) "u1" = true)
  ∧ (silent.1 = None
     ∧ append_outcome (w silent.2) = Some Appended
     ∧ files (disk silent.2) !! "u1" = Some abc
     ∧ sent_header (w silent.2) !! "Upload-Complete" = Some "?1"
     ∧ incomplete (disk silent.2) "u1" = false).
Proof. vm_compute. done. Qed.

(** ** The outcomes of an append *)

(** C2.  When no call fails and [Upload-Offset] parses to [c], the outcome of
    [UploadAppendingHandler] is the first that matches in the order NotFound,
    OffsetConflict, AlreadyComplete, Appended.  In particular an append to an
    existing, complete upload at an offset other than the server's is an
    OffsetConflict. *)
Theorem append_outcomes_in_order s r c :
  let id := request_id r in
  status (w s) = None →
  load_ok (disk s) id →
  faults (disk s) OpRemove (marker id) = false →
  broken (Body r) = false →
  getUploadOffset r = (c, true) →
  let '(err, s') := UploadAppendingHandler r s in
  err = None
  ∧ append_outcome (w s') = Some (AppendUpload_outcome_spec (disk s) id c)
  ∧ (∀ stored,
       files (disk s) !! id = Some stored →
       incomplete (disk s) id = false →
       c ≠ Z.of_nat (length stored) →
       append_outcome (w s') = Some OffsetConflict).
Proof.
  intros id Hfresh Hok Hr Hb Hc.
  assert (∀ s', append_outcome (w s') = Some (AppendUpload_outcome_spec (disk s) id c) →
          append_outcome (w s') = Some (AppendUpload_outcome_spec (disk s) id c)
          ∧ (∀ stored,
               files (disk s) !! id = Some stored →
               incomplete (disk s) id = false →
               c ≠ Z.of_nat (length stored) →
               append_outcome (w s') = Some OffsetConflict)) as Hparticular.
  { intros s' ->. split; [done|]. intros stored Hf _ Hne.
    unfold AppendUpload_outcome_spec. rewrite Hf.
    by assert ((c =? Z.of_nat (length stored))%Z = false) as -> by lia. }
  unfold AppendUpload_outcome_spec in *.
  destruct (files (disk s) !! id) as [stored|] eqn:Hf.
  - destruct (Z.eqb_spec c (Z.of_nat (length stored))) as [->|Hne]; cbn [negb] in *.
    + destruct (incomplete (disk s) id) eqn:Hi; cbn [negb] in *.
      * rewrite (append_run_appended s r Hfresh stored Hf Hok Hc Hi Hb Hr).
        split; [done|]. by apply Hparticular.
      * rewrite (append_run_complete s r Hfresh stored Hf Hok Hc Hi).
        split; [done|]. by apply Hparticular.
    + rewrite (append_run_conflict s r Hfresh stored Hf Hok c Hc Hne).
      split; [done|]. by apply Hparticular.
  - destruct Hok as (Hd & Ho & _).
    rewrite (append_run_not_found s r Hfresh Hf Hd Ho).
    split; [done|]. by apply Hparticular.
Qed.

Lemma append_outcomes_in_order_witness :
  let '(err, s') :=
    UploadAppendingHandler (patch_u1 [("Upload-Offset", "0")] xy) (world_u1 true abc) in
  err = None ∧ append_outcome (w s') = Some OffsetConflict.
Proof.
  pose proof (append_outcomes_in_order (world_u1 true abc)
                (patch_u1 [("Upload-Offset", "0")] xy) 0
                eq_refl (conj eq_refl (conj eq_refl eq_refl)) eq_refl eq_refl eq_refl) as H.
  destruct (UploadAppendingHandler (patch_u1 [("Upload-Offset", "0")] xy)
              (world_u1 true abc)) as [err s'].
  destruct H as (He & _ & H). split; [exact He|].
  apply (H abc); [reflexivity | reflexivity | discriminate].
Defined.

(** C4.  An append to an existing upload at an offset other than the server's
    changes no file (neither the stored bytes nor the marker), makes no call
    that writes, and answers 409 with the length of the stored bytes in
    [Upload-Offset] and the state of the marker in [Upload-Complete]. *)
Theorem offset_conflict_writes_nothing s r stored c :
  let id := request_id r in
  status (w s) = None →
  files (disk s) !! id = Some stored →
  load_ok (disk s) id →
  getUploadOffset r = (c, true) →
  c ≠ Z.of_nat (length stored) →
  let '(err, s') := UploadAppendingHandler r s in
  err = None
  ∧ files (disk s') = files (disk s)
  ∧ trace (disk s')
    = (trace (disk s) ++ [EvOpen id; EvSeek id; EvStat (marker id); EvClose id])%list
  ∧ append_outcome (w s') = Some OffsetConflict
  ∧ sent_header (w s') !! "Upload-Offset"
    = Some (strconv.FormatInt (Z.of_nat (length stored)))
  ∧ sent_header (w s') !! "Upload-Complete"
    = Some (if incomplete (disk s) id then "?0" else "?1").
Proof.
  intros id Hfresh Hf Hok Hc Hne.
  rewrite (append_run_conflict s r Hfresh stored Hf Hok c Hc Hne). cbn.
  repeat split; try done.
  - unfold upload_headers. by rewrite lookup_insert_eq.
  - unfold upload_headers. rewrite lookup_insert_ne, lookup_insert_eq by done.
    fold id. by destruct (incomplete (disk s) id).
Qed.

Lemma offset_conflict_writes_nothing_witness :
  let '(err, s') :=
    UploadAppendingHandler (patch_u1 [("Upload-Offset", "0")] xy) (world_u1 false abc) in
  err = None
  ∧ files (disk s') = files (disk_u1 false abc)
  ∧ sent_header (w s') !! "Upload-Offset" = Some "3"
  ∧ sent_header (w s') !! "Upload-Complete" = Some "?0".
Proof.
  pose proof (offset_conflict_writes_nothing (world_u1 false abc)
                (patch_u1 [("Upload-Offset", "0")] xy) abc 0
                eq_refl eq_refl (conj eq_refl (conj eq_refl eq_refl)) eq_refl) as H.
  destruct (UploadAppendingHandler (patch_u1 [("Upload-Offset", "0")] xy)
              (world_u1 false abc)) as [err s'].
  destruct H as (He & Hfiles & _ & _ & Ho & Hc); [discriminate|].
  repeat split; assumption.
Defined.

(** ** A request without a usable Upload-Offset *)

Lemma getUploadOffset_absent r :
  Header r !! "Upload-Offset" = None → (getUploadOffset r).2 = false.
Proof. intros H. unfold getUploadOffset, http.Get. by rewrite H. Qed.

(** C3, as stated, fails.  A PATCH without [Upload-Offset] to an existing
    upload is answered 400, and serving it has opened the byte storage, read
    its length and looked up the marker; to an unknown upload it is answered
    404. *)
Lemma invalid_offset_reaches_storage :
  let r := patch_u1 [] abc in
  (getUploadOffset r).2 = false
  ∧ (let s' := (UploadAppendingHandler r (world_u1 false [])).2 in
     append_outcome (w s') = Some ValidationError
     ∧ trace (disk (world_u1 false [])) = []
     ∧ trace (disk s')
       = [EvOpen "u1"; EvSeek "u1"; EvStat "u1.incomplete"; EvClose "u1"])
  ∧ (let s' := (UploadAppendingHandler r empty_world).2 in
     append_outcome (w s') = Some NotFound
     ∧ trace (disk s') = [EvOpen "u1"]).
Proof. vm_compute. done. Qed.

(** C3, amended.  A PATCH whose [Upload-Offset] is absent or does not parse
    does go to storage: the handler always attempts to open the byte storage
    of the id.  If the open fails with an error other than "not exist" (the
    id names a directory, or the call is refused), the error is returned and
    no response is written.  If the upload does not exist the answer is 404.
    If it exists, its length is read and its marker looked up as well; a
    failure of that lookup is returned without a response, and otherwise the
    answer is 400 and the file is closed.  In no case does a file change. *)
Theorem invalid_offset_rejected_after_load s r :
  let id := request_id r in
  status (w s) = None →
  (getUploadOffset r).2 = false →
  let '(err, s') := UploadAppendingHandler r s in
  files (disk s') = files (disk s)
  ∧ if faults (disk s) OpOpen id || os.is_dir_name id then
      err = Some ErrIO
      ∧ w s' = w s
      ∧ trace (disk s') = (trace (disk s) ++ [EvOpen id])%list
    else
      match files (disk s) !! id with
      | None =>
          err = None
          ∧ append_outcome (w s') = Some NotFound
          ∧ trace (disk s') = (trace (disk s) ++ [EvOpen id])%list
      | Some _ =>
          if faults (disk s) OpStat (marker id) then
            err = Some ErrIO
            ∧ w s' = w s
            ∧ trace (disk s')
              = (trace (disk s) ++ [EvOpen id; EvSeek id; EvStat (marker id)])%list
          else
            err = None
            ∧ append_outcome (w s') = Some ValidationError
            ∧ trace (disk s')
              = (trace (disk s)
                 ++ [EvOpen id; EvSeek id; EvStat (marker id); EvClose id])%list
      end.
Proof.
  intros id Hfresh Hc.
  destruct (faults (disk s) OpOpen id || os.is_dir_name id) eqn:Hopen.
  { unfold UploadAppendingHandler, loadUpload. fold (request_id r). fold id.
    run. rewrite Hopen. cbn. by rewrite <- ?app_assoc. }
  apply orb_false_elim in Hopen as [Ho Hd].
  destruct (files (disk s) !! id) as [stored|] eqn:Hf.
  - destruct (faults (disk s) OpStat (marker id)) eqn:Hs.
    + unfold UploadAppendingHandler, loadUpload. fold (request_id r). fold id.
      run. rewrite Ho, Hd, Hf. cbn. rewrite Hf. cbn. fold (marker id).
      rewrite Hs. cbn. by rewrite <- !app_assoc.
    + by rewrite (append_run_invalid s r Hfresh stored Hf (conj Hd (conj Ho Hs)) Hc).
  - by rewrite (append_run_not_found s r Hfresh Hf Hd Ho).
Qed.

Lemma invalid_offset_rejected_after_load_witness :
  let '(err, s') :=
    UploadAppendingHandler (patch_u1 [("Upload-Offset", "abc")] abc) (world_u1 false []) in
  err = None
  ∧ files (disk s') = files (disk_u1 false [])
  ∧ append_outcome (w s') = Some ValidationError.
Proof.
  pose proof (invalid_offset_rejected_after_load (world_u1 false [])
                (patch_u1 [("Upload-Offset", "abc")] abc) eq_refl eq_refl) as H.
  destruct (UploadAppendingHandler (patch_u1 [("Upload-Offset", "abc")] abc)
              (world_u1 false [])) as [err s'].
  destruct H as (Hfiles & He & Ho & _).
  split_and!; assumption.
Defined.

(** ** Appending to a complete upload *)

(** C5, as stated, fails.  An append to the complete upload ["u1"] of three
    bytes at the stale offset 0 is an OffsetConflict, not AlreadyComplete. *)
Lemma complete_upload_stale_offset_conflicts :
  let s := world_u1 true abc in
  let r := patch_u1 [("Upload-Offset", "0")] xy in
  files (disk s) !! "u1" = Some abc
  ∧ incomplete (disk s) "u1" = false
  ∧ append_outcome (w (UploadAppendingHandler r s).2) = Some OffsetConflict
  ∧ append_outcome (w (UploadAppendingHandler r s).2) ≠ Some AlreadyComplete.
Proof. vm_compute. done. Qed.

(** One append to a complete upload. *)
Lemma append_to_complete s r stored :
  let id := request_id r in
  status (w s) = None →
  files (disk s) !! id = Some stored →
  incomplete (disk s) id = false →
  load_ok (disk s) id →
  let '(err, s') := UploadAppendingHandler r s in
  err = None
  ∧ files (disk s') = files (disk s)
  ∧ faults (disk s') = faults (disk s)
  ∧ append_outcome (w s')
    = Some (append_outcome_when_complete (Z.of_nat (length stored)) r).
Proof.
  intros id Hfresh Hf Hi Hok. unfold append_outcome_when_complete.
  destruct (getUploadOffset r) as [c [|]] eqn:Hc.
  - destruct (Z.eqb_spec c (Z.of_nat (length stored))) as [->|Hne].
    + by rewrite (append_run_complete s r Hfresh stored Hf Hok Hc Hi).
    + by rewrite (append_run_conflict s r Hfresh stored Hf Hok c Hc Hne).
  - rewrite (append_run_invalid s r Hfresh stored Hf Hok) by (by rewrite Hc). done.
Qed.

(** C5, amended.  Once an upload is complete, every later append against its
    id leaves its stored bytes, its offset and its completion state as they
    are.  The append is answered AlreadyComplete when the client's offset is
    the server's, OffsetConflict when it differs, and ValidationError when
    [Upload-Offset] is absent or does not parse. *)
Theorem complete_upload_frozen d id stored rs :
  files d !! id = Some stored →
  incomplete d id = false →
  load_ok d id →
  Forall (λ r, request_id r = id) rs →
  let '(rws, d') := serve_appends rs d in
  files d' = files d
  ∧ Forall2
      (λ r rw,
         append_outcome rw
         = Some (append_outcome_when_complete (Z.of_nat (length stored)) r))
      rs rws.
Proof.
  intros Hf Hi Hok Hrs. revert d Hf Hi Hok.
  induction Hrs as [|r rs Hr Hrs IH]; intros d Hf Hi Hok; cbn.
  { split; [done | constructor]. }
  subst id.
  pose proof (append_to_complete {| disk := d; w := new_response |} r stored
                eq_refl Hf Hi Hok) as H1.
  destruct (UploadAppendingHandler r {| disk := d; w := new_response |}) as [err s'].
  destruct H1 as (_ & Hfiles & Hfaults & Hout). cbn in Hfiles, Hfaults.
  assert (load_ok (disk s') (request_id r)) as Hok'.
  { unfold load_ok in *. by rewrite Hfaults. }
  assert (incomplete (disk s') (request_id r) = false) as Hi'.
  { unfold incomplete in *. by rewrite Hfiles. }
  assert (files (disk s') !! request_id r = Some stored) as Hf' by (by rewrite Hfiles).
  specialize (IH (disk s') Hf' Hi' Hok').
  destruct (serve_appends rs (disk s')) as [rws d'].
  destruct IH as [IH1 IH2]. split; [congruence|]. by constructor.
Qed.

Lemma complete_upload_frozen_witness :
  let '(rws, d') :=
    serve_appends [patch_u1 [("Upload-Offset", "3")] xy;
                   patch_u1 [("Upload-Offset", "0"); ("Upload-Complete", "?1")] xy;
                   patch_u1 [] xy]
                  (disk_u1 true abc) in
  files d' = files (disk_u1 true abc)
  ∧ append_outcome <$> rws
    = [Some AlreadyComplete; Some OffsetConflict; Some ValidationError].
Proof.
  pose proof (complete_upload_frozen (disk_u1 true abc) "u1" abc
                [patch_u1 [("Upload-Offset", "3")] xy;
                 patch_u1 [("Upload-Offset", "0"); ("Upload-Complete", "?1")] xy;
                 patch_u1 [] xy]
                eq_refl eq_refl (conj eq_refl (conj eq_refl eq_refl))) as H.
  destruct (serve_appends _ _) as [rws d'].
  destruct H as [Hfiles Hout].
  { repeat constructor. }
  split; [exact Hfiles|].
  inversion Hout as [|? rw1 ? rws1 H1 Hout1]; subst.
  inversion Hout1 as [|? rw2 ? rws2 H2 Hout2]; subst.
  inversion Hout2 as [|? rw3 ? rws3 H3 Hout3]; subst.
  inversion Hout3; subst. cbn. rewrite H1, H2, H3. reflexivity.
Defined.

(** ** UploadCreationHandler *)

Section Create.
Variables (s : World) (id : string) (r : Request).

(** What a creation that meets no failure leaves behind. *)
Lemma create_run :
  create_ok (disk s) id r →
  status (w s) = None →
  UploadCreationHandler id r s =
    (None,
     {| disk :=
          traced ([EvOpen id; EvWriteFile (marker id);
                   EvWrite id (length (data (Body r))); EvSeek id]
                  ++ (if getUploadComplete r then [EvRemove (marker id)] else [])
                  ++ [EvClose id])
            (set_files (created_files (disk s) id r) (disk s));
        w := {| header := created_header (disk s) id r (header (w s));
                informational :=
                  informational (w s)
                  ++ (if interop r
                      then [(104, <["Upload-Draft-Interop-Version" := InteropVersion]>
                                   (<["Location" := getUrl r +:+ id]> (header (w s))))]
                      else []);
                status := None;
                sent_header := sent_header (w s);
                body := body (w s) |} |}).
Proof.
  intros (Hd & Ho & Hw & Hb & Hr) Hfresh.
  unfold UploadCreationHandler. fold (marker id). fold (interop r).
  destruct s as [d [h inf st sh b]]. cbn in *. subst st.
  assert (marker id ≠ id) as Hne by apply marker_neq.
  unfold created_header, created_files, created_content.
  run. rewrite Ho, Hd. cbn.
  destruct (files d !! id) as [old|] eqn:Hf; cbn; rewrite Hw; cbn.
  - destruct (interop r); cbn;
      rewrite lookup_insert_ne, Hf, Hb by done; cbn;
      rewrite lookup_insert_eq; cbn;
      (destruct (getUploadComplete r) eqn:Hc; cbn;
       [ rewrite Hr, lookup_insert_ne, lookup_insert_eq by done; cbn | ]);
      world_eq.
  - destruct (interop r); cbn;
      rewrite lookup_insert_ne, lookup_insert_eq, Hb by done; cbn;
      rewrite lookup_insert_eq; cbn;
      rewrite (insert_insert_ne _ (marker id) id), insert_insert_eq by done;
      (destruct (getUploadComplete r) eqn:Hc; cbn;
       [ rewrite Hr, lookup_insert_ne, lookup_insert_eq by done; cbn | ]);
      world_eq.
Qed.

(** A creation that returns [nil] has met no failure. *)
Lemma create_success :
  (UploadCreationHandler id r s).1 = None → create_ok (disk s) id r.
Proof.
  assert (marker id ≠ id) as Hne by apply marker_neq.
  unfold create_ok, UploadCreationHandler. fold (marker id). fold (interop r).
  destruct s as [d rw]. cbn [disk].
  destruct (os.is_dir_name id) eqn:Hd.
  { run. by rewrite Hd, orb_true_r. }
  destruct (faults d OpOpen id) eqn:Ho.
  { run. by rewrite Ho. }
  destruct (faults d OpWriteFile (marker id)) eqn:Hw.
  { run. rewrite Ho, Hd. cbn. by destruct (files d !! id); cbn; rewrite Hw. }
  destruct (broken (Body r)) eqn:Hb.
  { run. rewrite Ho, Hd. cbn.
    destruct (files d !! id) eqn:Hf; cbn; rewrite Hw; cbn;
      destruct (interop r); cbn;
      by rewrite lookup_insert_ne, ?Hf, ?lookup_insert_eq, Hb by done. }
  destruct (getUploadComplete r) eqn:Hc; [|done].
  destruct (faults d OpRemove (marker id)) eqn:Hr; [|done].
  run. rewrite Ho, Hd. cbn.
  destruct (files d !! id) eqn:Hf; cbn; rewrite Hw; cbn;
    destruct (interop r); cbn;
    rewrite lookup_insert_ne, ?Hf, ?lookup_insert_eq, Hb by done; cbn;
    rewrite lookup_insert_eq; cbn; by rewrite Hr.
Qed.

Lemma created_files_id :
  created_files (disk s) id r !! id = Some (created_content (disk s) id r).
Proof.
  pose proof (marker_neq id) as Hne. unfold created_files.
  destruct (getUploadComplete r).
  - by rewrite lookup_delete_ne, lookup_insert_eq.
  - by rewrite lookup_insert_eq.
Qed.

Lemma created_files_marker :
  created_files (disk s) id r !! marker id
  = if getUploadComplete r then None else Some [].
Proof.
  pose proof (marker_neq id) as Hne. unfold created_files.
  destruct (getUploadComplete r).
  - by rewrite lookup_delete_eq.
  - by rewrite lookup_insert_ne, lookup_insert_eq.
Qed.

Lemma created_files_other name :
  name ≠ id → name ≠ marker id →
  created_files (disk s) id r !! name = files (disk s) !! name.
Proof.
  intros H1 H2. unfold created_files.
  destruct (getUploadComplete r);
    by rewrite ?lookup_delete_ne, !lookup_insert_ne by done.
Qed.

Lemma created_header_offset h :
  created_header (disk s) id r h !! "Upload-Offset"
  = Some (strconv.FormatInt (Z.of_nat (length (created_content (disk s) id r)))).
Proof. unfold created_header, upload_headers. by rewrite lookup_insert_eq. Qed.

Lemma created_header_complete h :
  created_header (disk s) id r h !! "Upload-Complete"
  = Some (if getUploadComplete r then "?1" else "?0").
Proof.
  unfold created_header, upload_headers.
  by rewrite lookup_insert_ne, lookup_insert_eq.
Qed.

Lemma created_header_location h :
  created_header (disk s) id r h !! "Location" = Some (getUrl r +:+ id).
Proof.
  unfold created_header, upload_headers.
  rewrite !lookup_insert_ne by done.
  destruct (interop r).
  - by rewrite lookup_delete_ne, lookup_insert_ne, lookup_insert_eq.
  - by rewrite lookup_insert_eq.
Qed.
End Create.

Lemma getUploadComplete_spec r :
  getUploadComplete r = true ↔ http.Get (Header r) "Upload-Complete" = "?1".
Proof.
  unfold getUploadComplete.
  destruct (String.eqb_spec (http.Get (Header r) "Upload-Complete") "?1"); naive_solver.
Qed.

(** C6.  A creation that returns [nil] copies the body, then reads the
    length of the stored bytes back, and reports that length as the offset;
    for a new id the stored bytes are the body.  It reports the upload as
    complete, and has removed the marker, exactly when the request carries
    [Upload-Complete: ?1]. *)
Theorem create_reports_persisted_offset s id r :
  status (w s) = None →
  (UploadCreationHandler id r s).1 = None →
  let s' := (UploadCreationHandler id r s).2 in
  ∃ stored,
    files (disk s') !! id = Some stored
    ∧ header (w s') !! "Upload-Offset"
      = Some (strconv.FormatInt (Z.of_nat (length stored)))
    ∧ (files (disk s) !! id = None → stored = data (Body r))
    ∧ (∃ rest,
         trace (disk s')
         = (trace (disk s)
            ++ [EvOpen id; EvWriteFile (marker id);
                EvWrite id (length (data (Body r))); EvSeek id] ++ rest)%list)
    ∧ header (w s') !! "Upload-Complete"
      = Some (if getUploadComplete r then "?1" else "?0")
    ∧ (getUploadComplete r = true ↔ http.Get (Header r) "Upload-Complete" = "?1")
    ∧ (files (disk s') !! marker id = None ↔ getUploadComplete r = true).
Proof.
  intros Hfresh Hnil. apply create_success in Hnil.
  rewrite (create_run s id r Hnil Hfresh). cbn.
  exists (created_content (disk s) id r).
  split_and!.
  - apply created_files_id.
  - apply created_header_offset.
  - intros Hf. unfold created_content. rewrite Hf. apply write_at_start_empty.
  - eexists. reflexivity.
  - apply created_header_complete.
  - apply getUploadComplete_spec.
  - rewrite created_files_marker. by destruct (getUploadComplete r).
Qed.

Lemma create_reports_persisted_offset_witness :
  let s' :=
    (UploadCreationHandler "u1" (post_files [("Upload-Complete", "?1")] abc)
       empty_world).2 in
  ∃ stored,
    files (disk s') !! "u1" = Some stored
    ∧ header (w s') !! "Upload-Offset"
      = Some (strconv.FormatInt (Z.of_nat (length stored)))
    ∧ stored = abc
    ∧ files (disk s') !! "u1.incomplete" = None.
Proof.
  destruct (create_reports_persisted_offset empty_world "u1"
              (post_files [("Upload-Complete", "?1")] abc) eq_refl eq_refl)
    as (stored & Hf & Ho & Hnew & _ & _ & _ & Hm).
  exists stored. split_and!; [exact Hf | exact Ho | by apply Hnew | by apply Hm].
Defined.

(** ** The response to a POST *)

Arguments UploadCreationHandler : simpl never.

Lemma ServeHTTP_POST s id r :
  Method r = "POST" →
  ServeHTTP id r s = UploadCreationHandler id r (with_cors s).
Proof. intros HM. unfold ServeHTTP. run. rewrite HM. reflexivity. Qed.

(** C7.  A POST that [ServeHTTP] serves without error is answered with a
    status of the class of 201: the handler writes no final status itself, so
    the server sends 200.  The header of that response holds, in [Location],
    the URL of the request followed by the new id, in [Upload-Offset] the
    length of the bytes stored for the id, and in [Upload-Complete] whether
    its marker is gone. *)
Theorem create_response s id r :
  status (w s) = None →
  Method r = "POST" →
  (ServeHTTP id r s).1 = None →
  let s' := (ServeHTTP id r s).2 in
  let rw := w (http.finishRequest s').2 in
  status (w s') = None
  ∧ status rw = Some http.StatusOK
  ∧ status_class http.StatusOK = status_class http.StatusCreated
  ∧ sent_header rw !! "Location" = Some (getUrl r +:+ id)
  ∧ (∃ stored,
       files (disk s') !! id = Some stored
       ∧ sent_header rw !! "Upload-Offset"
         = Some (strconv.FormatInt (Z.of_nat (length stored))))
  ∧ sent_header rw !! "Upload-Complete"
    = Some (if incomplete (disk s') id then "?0" else "?1").
Proof.
  intros Hfresh HM. rewrite (ServeHTTP_POST s id r HM). intros Hnil.
  apply create_success in Hnil.
  rewrite (create_run (with_cors s) id r Hnil Hfresh). cbn.
  split_and!; try done.
  - apply created_header_location.
  - eexists. split; [apply created_files_id | apply created_header_offset].
  - unfold incomplete. cbn. rewrite created_header_complete, created_files_marker.
    by destruct (getUploadComplete r).
Qed.

Lemma create_response_witness :
  let s' := (ServeHTTP "u1" (post_files [] abc) empty_world).2 in
  let rw := w (http.finishRequest s').2 in
  status rw = Some 200
  ∧ sent_header rw !! "Location" = Some "http://example.org/files/u1"
  ∧ sent_header rw !! "Upload-Complete" = Some "?0".
Proof.
  destruct (create_response empty_world "u1" (post_files [] abc) eq_refl eq_refl eq_refl)
    as (_ & Hs & _ & Hl & _ & Hc).
  split_and!; [exact Hs | exact Hl | exact Hc].
Defined.

(** ** Creating under an id that exists *)

(** C9, as stated, fails.  Creating under the id of the complete upload
    ["u1"] returns [nil]: the existing storage is opened as it is, the body
    overwrites its first bytes, and the marker is back. *)
Lemma create_reuses_existing_storage :
  let s := world_u1 true abc in
  let r := post_files [] xy in
  files (disk s) !! "u1" = Some abc
  ∧ (os.OpenFile "u1" true s).1 = Ok {| f_name := "u1"; f_pos := 0 |}
  ∧ (UploadCreationHandler "u1" r s).1 = None
  ∧ files (disk (UploadCreationHandler "u1" r s).2) !! "u1"
    = Some [Byte.x78; Byte.x79; Byte.x63]
  ∧ incomplete (disk (UploadCreationHandler "u1" r s).2) "u1" = true.
Proof. vm_compute. done. Qed.

(** C9, amended.  When an upload with the id exists, the allocation does not
    fail on that account: [os.OpenFile] opens the existing byte storage
    without changing it, and the creation, unless a call meets a storage
    failure, returns [nil], having written the body over the stored bytes from
    position 0 and set the marker anew (removed again if the request signals
    completion); other files stay as they are. *)
Theorem create_on_existing_id s id r old :
  files (disk s) !! id = Some old →
  create_ok (disk s) id r →
  status (w s) = None →
  (os.OpenFile id true s).1 = Ok {| f_name := id; f_pos := 0 |}
  ∧ files (disk (os.OpenFile id true s).2) = files (disk s)
  ∧ let '(err, s') := UploadCreationHandler id r s in
    err = None
    ∧ files (disk s') !! id
      = Some (data (Body r) ++ drop (length (data (Body r))) old)%list
    ∧ files (disk s') !! marker id = (if getUploadComplete r then None else Some [])
    ∧ (∀ name, name ≠ id → name ≠ marker id →
               files (disk s') !! name = files (disk s) !! name).
Proof.
  intros Hf Hok Hfresh.
  pose proof Hok as (Hd & Ho & _).
  split_and!.
  - run. by rewrite Ho, Hd, Hf.
  - run. by rewrite Ho, Hd, Hf.
  - rewrite (create_run s id r Hok Hfresh). cbn. split_and!.
    + done.
    + rewrite created_files_id. unfold created_content. by rewrite Hf.
    + apply created_files_marker.
    + apply created_files_other.
Qed.

Lemma create_on_existing_id_witness :
  let '(err, s') :=
    UploadCreationHandler "u1" (post_files [("Upload-Complete", "?1")] xy)
      (world_u1 false abc) in
  err = None
  ∧ files (disk s') !! "u1" = Some [Byte.x78; Byte.x79; Byte.x63]
  ∧ files (disk s') !! "u1.incomplete" = None.
Proof.
  destruct (create_on_existing_id (world_u1 false abc) "u1"
              (post_files [("Upload-Complete", "?1")] xy) abc eq_refl) as (_ & _ & H).
  { unfold create_ok. split_and!; reflexivity. }
  { reflexivity. }
  destruct (UploadCreationHandler _ _ _) as [err s'].
  destruct H as (He & Hf & Hm & _).
  split_and!; [exact He | exact Hf | exact Hm].
Defined.

(** ** strconv.Atoi on decimal numerals *)

Lemma digits_step c d acc s :
  strconv.digit c = Some d →
  strconv.digits acc (String c s) = strconv.digits (10 * acc + d) s.
Proof. intros H. cbn [strconv.digits]. by rewrite H. Qed.

Ltac digits_case IH :=
  cbn [NilEmpty.string_of_uint Pos.of_uint_acc Pos.of_uint];
  erewrite digits_step by (vm_compute; reflexivity);
  try (rewrite <- IH; f_equal; lia).

Lemma digits_of_uint_acc (u : Decimal.uint) (p : positive) :
  strconv.digits (Z.pos p) (NilEmpty.string_of_uint u)
  = Some (Z.pos (Pos.of_uint_acc u p)).
Proof.
  revert p. induction u as [|u IH|u IH|u IH|u IH|u IH|u IH|u IH|u IH|u IH|u IH];
    intros p; [reflexivity|..]; digits_case IH.
Qed.

Lemma digits_of_uint (u : Decimal.uint) :
  strconv.digits 0 (NilEmpty.string_of_uint u) = Some (Z.of_uint u).
Proof.
  unfold Z.of_uint.
  induction u as [|u IH|u IH|u IH|u IH|u IH|u IH|u IH|u IH|u IH|u IH];
    [reflexivity|digits_case IH; exact IH|..];
    digits_case IH; cbn [Z.add Z.mul Z.of_N]; apply digits_of_uint_acc.
Qed.

Lemma digits_NilZero (u : Decimal.uint) :
  strconv.digits 0 (NilZero.string_of_uint u) = Some (Z.of_uint u).
Proof. destruct u; [reflexivity|..]; apply digits_of_uint. Qed.

(** A numeral of the standard library starts with a digit. *)
Lemma NilZero_first (u : Decimal.uint) :
  ∃ c rest, NilZero.string_of_uint u = String c rest
            ∧ Ascii.eqb c "-" = false ∧ Ascii.eqb c "+" = false.
Proof. destruct u; cbn; eauto. Qed.

Lemma Atoi_string_of_int (d : Decimal.int) :
  (strconv.min_int ≤ Z.of_int d ≤ strconv.max_int)%Z →
  strconv.Atoi (NilZero.string_of_int d) = Some (Z.of_int d).
Proof.
  intros Hrange.
  assert ((strconv.min_int <=? Z.of_int d)%Z && (Z.of_int d <=? strconv.max_int)%Z = true)
    as Hin by lia.
  destruct d as [u|u]; cbn [NilZero.string_of_int Z.of_int] in *.
  - destruct (NilZero_first u) as (c & rest & E & Hm & Hp).
    pose proof (digits_NilZero u) as Hd. rewrite E in *.
    unfold strconv.Atoi. rewrite Hm, Hp, Hd. cbn. by rewrite Hin.
  - destruct (NilZero_first u) as (c & rest & E & _ & _).
    pose proof (digits_NilZero u) as Hd. rewrite E in *.
    unfold strconv.Atoi. cbn [Ascii.eqb Bool.eqb]. rewrite Hd. by rewrite Hin.
Qed.

(** What the server sends in [Upload-Offset] parses back to the offset. *)
Lemma Atoi_FormatInt (v : Z) :
  (strconv.min_int ≤ v ≤ strconv.max_int)%Z →
  strconv.Atoi (strconv.FormatInt v) = Some v.
Proof.
  intros H. unfold strconv.FormatInt.
  rewrite Atoi_string_of_int; rewrite DecimalZ.of_to; done.
Qed.

Lemma Atoi_negative s v :
  negative_integer_string s v →
  (strconv.min_int ≤ v)%Z →
  strconv.Atoi s = Some v.
Proof.
  intros (d & Hs & Hv & Hneg) Hmin.
  apply NilZero.sis in Hs. subst s v.
  apply Atoi_string_of_int. unfold strconv.max_int. lia.
Qed.

(** ** A negative Upload-Offset *)

(** C10, as stated, fails.  [Upload-Offset: -9223372036854775809] is a
    negative integer string that [strconv.Atoi] rejects, since its value does
    not fit [int]; the request is answered 400. *)
Lemma negative_offset_out_of_range_rejected :
  let r := patch_u1 [("Upload-Offset", "-9223372036854775809")] xy in
  negative_integer_string (http.Get (Header r) "Upload-Offset") (- 2 ^ 63 - 1)
  ∧ getUploadOffset r = (0, false)
  ∧ append_outcome (w (UploadAppendingHandler r (world_u1 false abc)).2)
    = Some ValidationError.
Proof.
  split_and!.
  - eexists. split_and!; [vm_compute; reflexivity | vm_compute; reflexivity | lia].
  - vm_compute. reflexivity.
  - vm_compute. reflexivity.
Qed.

(** C10, amended.  When [Upload-Offset] is a negative integer string whose
    value is at least -2^63, the header parses, and an append to an existing
    upload, complete or not, is an OffsetConflict that carries the server's
    offset and changes no file: the length of the stored bytes is never
    negative. *)
Theorem negative_offset_conflicts s r stored v :
  let id := request_id r in
  status (w s) = None →
  files (disk s) !! id = Some stored →
  load_ok (disk s) id →
  negative_integer_string (http.Get (Header r) "Upload-Offset") v →
  (strconv.min_int ≤ v)%Z →
  getUploadOffset r = (v, true)
  ∧ let '(err, s') := UploadAppendingHandler r s in
    err = None
    ∧ files (disk s') = files (disk s)
    ∧ append_outcome (w s') = Some OffsetConflict
    ∧ sent_header (w s') !! "Upload-Offset"
      = Some (strconv.FormatInt (Z.of_nat (length stored))).
Proof.
  intros id Hfresh Hf Hok Hneg Hmin.
  assert (getUploadOffset r = (v, true)) as Hc.
  { unfold getUploadOffset. by rewrite (Atoi_negative _ v Hneg Hmin). }
  assert (v ≠ Z.of_nat (length stored)) as Hne.
  { destruct Hneg as (_ & _ & _ & Hv). lia. }
  split; [exact Hc|].
  rewrite (append_run_conflict s r Hfresh stored Hf Hok v Hc Hne). cbn.
  split_and!; try done.
  unfold upload_headers. by rewrite lookup_insert_eq.
Qed.

Lemma negative_offset_conflicts_witness :
  let r := patch_u1 [("Upload-Offset", "-1")] xy in
  getUploadOffset r = (-1, true)
  ∧ let '(err, s') := UploadAppendingHandler r (world_u1 false abc) in
    err = None
    ∧ append_outcome (w s') = Some OffsetConflict
    ∧ sent_header (w s') !! "Upload-Offset" = Some "3".
Proof.
  destruct (negative_offset_conflicts (world_u1 false abc)
              (patch_u1 [("Upload-Offset", "-1")] xy) abc (-1)
              eq_refl eq_refl (conj eq_refl (conj eq_refl eq_refl))) as [Hc H].
  { exists (Decimal.D1 Decimal.Nil). split_and!; [reflexivity | reflexivity | lia]. }
  { unfold strconv.min_int. lia. }
  split; [exact Hc|].
  destruct (UploadAppendingHandler _ _) as [err s'].
  destruct H as (He & _ & Ho & Hh).
  split_and!; [exact He | exact Ho | exact Hh].
Defined.

(** * Further properties *)

(** ** Invariants through a handler *)

Lemma keeps_ret {A} I (a : A) : keeps I (ret a).
Proof. by intros s Hs. Qed.

Lemma keeps_bind {A B} I (c : M A) (k : A → M B) :
  keeps I c → (∀ a, keeps I (k a)) → keeps I (bind c k).
Proof.
  intros Hc Hk s Hs. unfold bind. specialize (Hc s Hs).
  destruct (c s) as [a s1]. by apply Hk.
Qed.

Lemma keeps_defer_Close {A} I file (rest : M A) :
  keeps I (os.Close file) → keeps I rest → keeps I (defer_Close file rest).
Proof.
  intros Hc Hr. unfold defer_Close.
  apply keeps_bind; [done|]. intros a. apply keeps_bind; [done|]. intros _.
  apply keeps_ret.
Qed.

(** The calls of [os] and [io] leave the response alone, and those of
    [net/http] the directory. *)
Section Separation.
Variable I : World → Prop.

Section OfW.
Hypothesis HI : of_w I.

Lemma OpenFile_keeps_w name create : keeps I (os.OpenFile name create).
Proof. intros s Hs. apply (HI s); [|done]. run. by repeat case_match. Qed.

Lemma WriteFile_keeps_w name content : keeps I (os.WriteFile name content).
Proof. intros s Hs. apply (HI s); [|done]. run. by repeat case_match. Qed.

Lemma Stat_keeps_w name : keeps I (os.Stat name).
Proof. intros s Hs. apply (HI s); [|done]. run. by repeat case_match. Qed.

Lemma Remove_keeps_w name : keeps I (os.Remove name).
Proof. intros s Hs. apply (HI s); [|done]. run. by repeat case_match. Qed.

Lemma SeekEnd_keeps_w file : keeps I (os.SeekEnd file).
Proof. intros s Hs. apply (HI s); [|done]. run. by repeat case_match. Qed.

Lemma Close_keeps_w file : keeps I (os.Close file).
Proof. intros s Hs. apply (HI s); [|done]. run. by repeat case_match. Qed.

Lemma Copy_keeps_w file src : keeps I (io.Copy file src).
Proof. intros s Hs. apply (HI s); [|done]. run. by repeat case_match. Qed.
End OfW.

Section OfDisk.
Hypothesis HI : of_disk I.

Lemma on_w_keeps_disk f : keeps I (modify (on_w f)).
Proof. intros s Hs. by apply (HI s). Qed.

Lemma Set_keeps_disk key value : keeps I (http.Set_ key value).
Proof. apply on_w_keeps_disk. Qed.

Lemma Del_keeps_disk key : keeps I (http.Del key).
Proof. apply on_w_keeps_disk. Qed.

Lemma WriteHeader_keeps_disk code : keeps I (http.WriteHeader code).
Proof. apply on_w_keeps_disk. Qed.

Lemma Write_keeps_disk p : keeps I (http.Write p).
Proof.
  apply keeps_bind; [apply WriteHeader_keeps_disk|].
  intros _. apply on_w_keeps_disk.
Qed.
End OfDisk.
End Separation.

(** The calls that [loadUpload] makes change no file. *)
Section ReadOnly.
Variable m : gmap string (list Byte.byte).
Let same : World → Prop := λ s, files (disk s) = m.

Lemma OpenFile_reads name : keeps same (os.OpenFile name false).
Proof. intros s Hs. subst same. run. by repeat case_match. Qed.

Lemma Stat_reads name : keeps same (os.Stat name).
Proof. intros s Hs. subst same. run. by repeat case_match. Qed.

Lemma SeekEnd_reads file : keeps same (os.SeekEnd file).
Proof. intros s Hs. subst same. run. by repeat case_match. Qed.

Lemma Close_reads file : keeps same (os.Close file).
Proof. intros s Hs. subst same. run. by repeat case_match. Qed.

Lemma loadUpload_reads id : keeps same (loadUpload id).
Proof.
  unfold loadUpload.
  repeat first
    [ apply keeps_ret
    | apply OpenFile_reads | apply Stat_reads | apply SeekEnd_reads
    | apply keeps_bind; [|intros ?]
    | case_match ].
Qed.
End ReadOnly.

Ltac of_disk_or_w := intros ? ? E; unfold cors_kept; cbn; by rewrite E.

(** Steps through a handler for an invariant of the directory alone:
    [tac] closes the calls of [os] and [io]. *)
Ltac keeps_disk tac :=
  repeat first
    [ apply keeps_ret
    | apply Set_keeps_disk; [of_disk_or_w]
    | apply Del_keeps_disk; [of_disk_or_w]
    | apply WriteHeader_keeps_disk; [of_disk_or_w]
    | apply Write_keeps_disk; [of_disk_or_w]
    | tac
    | apply keeps_defer_Close
    | apply keeps_bind; [|intros ?]
    | case_match ].

(** Steps through a handler for an invariant of the response alone: [tac]
    closes the calls of [net/http]. *)
Ltac keeps_w tac :=
  repeat first
    [ apply keeps_ret
    | apply OpenFile_keeps_w; [of_disk_or_w]
    | apply WriteFile_keeps_w; [of_disk_or_w]
    | apply Stat_keeps_w; [of_disk_or_w]
    | apply Remove_keeps_w; [of_disk_or_w]
    | apply SeekEnd_keeps_w; [of_disk_or_w]
    | apply Close_keeps_w; [of_disk_or_w]
    | apply Copy_keeps_w; [of_disk_or_w]
    | tac
    | apply keeps_defer_Close
    | apply keeps_bind; [|intros ?]
    | case_match ].

(** ** OffsetRetrievingHandler *)

(** X3.  Whatever the request and the state of the directory, failures
    included, [OffsetRetrievingHandler] changes no file. *)
Theorem head_never_writes s r :
  files (disk (OffsetRetrievingHandler r s).2) = files (disk s).
Proof.
  assert (keeps (λ s', files (disk s') = files (disk s)) (OffsetRetrievingHandler r)) as H.
  { unfold OffsetRetrievingHandler, setUploadHeaders.
    keeps_disk ltac:(first [ apply loadUpload_reads | apply Close_reads ]). }
  by apply H.
Qed.

(** ** The CORS fields *)

Lemma has_cors_insert key value h :
  upload_field key = true → has_cors h → has_cors (<[key := value]> h).
Proof.
  unfold upload_field. intros Hk (H1 & H2 & H3 & H4).
  repeat (apply orb_prop in Hk as [Hk|Hk]);
    apply String.eqb_eq in Hk; subst key;
    by split_and!; rewrite lookup_insert_ne.
Qed.

Lemma has_cors_delete key h :
  upload_field key = true → has_cors h → has_cors (delete key h).
Proof.
  unfold upload_field. intros Hk (H1 & H2 & H3 & H4).
  repeat (apply orb_prop in Hk as [Hk|Hk]);
    apply String.eqb_eq in Hk; subst key;
    by split_and!; rewrite lookup_delete_ne.
Qed.

Lemma has_cors_cors_header h : has_cors (cors_header h).
Proof.
  unfold has_cors, cors_header.
  split_and!; repeat (rewrite lookup_insert_ne by done); apply lookup_insert_eq.
Qed.

Lemma cors_kept_of_w : of_w cors_kept.
Proof. intros s s' E. unfold cors_kept. by rewrite E. Qed.

Lemma Set_keeps_cors key value :
  upload_field key = true → keeps cors_kept (http.Set_ key value).
Proof.
  intros Hk s [H1 H2]. unfold cors_kept. run.
  split; [by apply has_cors_insert | done].
Qed.

Lemma Del_keeps_cors key :
  upload_field key = true → keeps cors_kept (http.Del key).
Proof.
  intros Hk s [H1 H2]. unfold cors_kept. run.
  split; [by apply has_cors_delete | done].
Qed.

Lemma WriteHeader_keeps_cors code : keeps cors_kept (http.WriteHeader code).
Proof.
  intros [d rw] [H1 H2]. unfold cors_kept. run. cbn in H1, H2.
  destruct (status rw) eqn:E; cbn.
  - rewrite E. split; [done|]. intros _. by apply H2.
  - case_match; cbn; done.
Qed.

Lemma Write_keeps_cors p : keeps cors_kept (http.Write p).
Proof.
  apply keeps_bind; [apply WriteHeader_keeps_cors|].
  intros _ [d rw] H. exact H.
Qed.

Lemma finishRequest_status s : status (w (http.finishRequest s).2) ≠ None.
Proof.
  destruct s as [d rw]. run.
  destruct (status rw) eqn:E; cbn; [by rewrite E | done].
Qed.

Ltac keeps_cors :=
  keeps_w ltac:(first
    [ apply Set_keeps_cors; reflexivity
    | apply Del_keeps_cors; reflexivity
    | apply WriteHeader_keeps_cors
    | apply Write_keeps_cors ]).

Lemma loadUpload_keeps_cors id : keeps cors_kept (loadUpload id).
Proof. unfold loadUpload. keeps_cors. Qed.

Lemma create_keeps_cors id r : keeps cors_kept (UploadCreationHandler id r).
Proof. unfold UploadCreationHandler, setUploadHeaders. keeps_cors. Qed.

Lemma head_keeps_cors r : keeps cors_kept (OffsetRetrievingHandler r).
Proof.
  unfold OffsetRetrievingHandler, setUploadHeaders.
  keeps_w ltac:(first [ apply loadUpload_keeps_cors | keeps_cors ]).
Qed.

Lemma append_keeps_cors r : keeps cors_kept (UploadAppendingHandler r).
Proof.
  unfold UploadAppendingHandler, setUploadHeaders.
  keeps_w ltac:(first [ apply loadUpload_keeps_cors | keeps_cors ]).
Qed.

Lemma ServeHTTP_with_cors s id r :
  ServeHTTP id r s =
    (if String.eqb (Method r) "OPTIONS" then
       let* _ := http.WriteHeader http.StatusOK in ret None
     else if String.eqb (Method r) "POST" then UploadCreationHandler id r
     else if String.eqb (Method r) "HEAD" then OffsetRetrievingHandler r
     else if String.eqb (Method r) "PATCH" then UploadAppendingHandler r
     else let* _ := http.WriteHeader http.StatusMethodNotAllowed in ret None)
      (with_cors s).
Proof. reflexivity. Qed.

(** X9.  Whatever the method, the request and the state of the directory,
    the header of the response holds the four CORS fields when [ServeHTTP]
    returns, and so does the header that goes out: the one already sent, if
    a status is written, and the one the server sends on return otherwise. *)
Theorem cors_on_every_response s id r :
  status (w s) = None →
  let s' := (ServeHTTP id r s).2 in
  has_cors (header (w s'))
  ∧ (status (w s') ≠ None → has_cors (sent_header (w s')))
  ∧ has_cors (sent_header (w (http.finishRequest s').2)).
Proof.
  intros Hfresh. cbn zeta.
  assert (cors_kept (ServeHTTP id r s).2) as [H1 H2].
  { rewrite ServeHTTP_with_cors.
    assert (cors_kept (with_cors s)) as H0.
    { split; cbn; [apply has_cors_cors_header | by rewrite Hfresh]. }
    revert H0. generalize (with_cors s).
    change (keeps cors_kept
      (if String.eqb (Method r) "OPTIONS" then
         let* _ := http.WriteHeader http.StatusOK in ret None
       else if String.eqb (Method r) "POST" then UploadCreationHandler id r
       else if String.eqb (Method r) "HEAD" then OffsetRetrievingHandler r
       else if String.eqb (Method r) "PATCH" then UploadAppendingHandler r
       else let* _ := http.WriteHeader http.StatusMethodNotAllowed in ret None)).
    repeat case_match;
      first [ apply create_keeps_cors | apply head_keeps_cors
            | apply append_keeps_cors | keeps_cors ]. }
  split_and!; [exact H1 | exact H2 |].
  destruct (WriteHeader_keeps_cors http.StatusOK (ServeHTTP id r s).2 (conj H1 H2))
    as [_ H3].
  apply H3, finishRequest_status.
Qed.

(** ** What loadUpload returns, in every case *)

Lemma loadUpload_cases s id :
  let '(file, exists_, isComplete, offset, err, s') := loadUpload id s in
  files (disk s') = files (disk s)
  ∧ faults (disk s') = faults (disk s)
  ∧ w s' = w s
  ∧ (err = None → exists_ = true →
     ∃ stored,
       files (disk s) !! id = Some stored
       ∧ file = Some {| f_name := id; f_pos := length stored |}
       ∧ offset = Z.of_nat (length stored)
       ∧ isComplete = negb (incomplete (disk s) id)).
Proof.
  pose proof (marker_not_dir id) as Hmd.
  unfold loadUpload, incomplete, marker in *. run.
  repeat (case_match; simplify_eq/=; try done); split_and!; try done;
    intros _ _; eexists; split_and!; try done; congruence.
Qed.

(** The files after an append, in every case: as they were, or with the body
    at the end of the upload, with or without its marker. *)
Lemma append_files s r :
  let id := request_id r in
  let m' := files (disk (UploadAppendingHandler r s).2) in
  m' = files (disk s)
  ∨ ∃ stored,
      files (disk s) !! id = Some stored
      ∧ (m' = <[id := (stored ++ data (Body r))%list]> (files (disk s))
         ∨ m' = delete (marker id)
                  (<[id := (stored ++ data (Body r))%list]> (files (disk s)))).
Proof.
  intros id m'.
  enough (∀ m, files (disk (UploadAppendingHandler r s).2) = m →
               m = files (disk s)
               ∨ ∃ stored,
                   files (disk s) !! id = Some stored
                   ∧ (m = <[id := (stored ++ data (Body r))%list]> (files (disk s))
                      ∨ m = delete (marker id)
                              (<[id := (stored ++ data (Body r))%list]>
                                 (files (disk s))))) as H by by apply H.
  clear m'. intros m.
  unfold UploadAppendingHandler. fold (request_id r). fold id.
  pose proof (loadUpload_cases s id) as Hload.
  unfold bind at 1. cbn beta.
  destruct (loadUpload id s) as [[[[[file exists_] c] off] err] s1].
  destruct Hload as (Hfiles & _ & _ & Hload).
  destruct err as [e|]; [intros <-; by left|].
  destruct exists_; cbn [negb]; [|intros <-; by left].
  destruct (Hload eq_refl eq_refl) as (stored & Hstored & -> & -> & ->).
  clear Hload.
  destruct (getUploadOffset r) as [offset_client ok].
  assert (∀ c : M (option error),
            keeps (λ s', files (disk s') = files (disk s1)) c →
            files (disk (c s1).2) = files (disk s)) as Hkeeps.
  { intros c0 H0. by rewrite (H0 s1 eq_refl). }
  destruct ok; cbn [negb];
    [|intros <-; left; apply Hkeeps; keeps_disk ltac:(apply Close_reads)].
  destruct (Z.of_nat (length stored) =? offset_client)%Z; cbn [negb];
    [|intros <-; left; apply Hkeeps; unfold setUploadHeaders;
      keeps_disk ltac:(apply Close_reads)].
  destruct (incomplete (disk s) id) eqn:Hi; cbn [negb];
    [|intros <-; left; apply Hkeeps; unfold setUploadHeaders;
      keeps_disk ltac:(apply Close_reads)].
  clear Hkeeps.
  apply incomplete_true in Hi as [mk Hmk].
  pose proof (marker_neq id) as Hne.
  destruct s1 as [d1 rw1]. cbn in Hfiles. fold (marker id).
  run. rewrite Hfiles, Hstored. cbn. rewrite write_at_end.
  destruct (broken (Body r)); cbn.
  { intros <-. right. eexists. split; [done|]. by left. }
  destruct (getUploadComplete r); cbn.
  { intros <-. right. eexists. split; [done|]. by left. }
  rewrite lookup_insert_ne, Hmk by done.
  destruct (faults d1 OpRemove (marker id)); cbn.
  { intros <-. right. eexists. split; [done|]. by left. }
  intros <-. right. eexists. split; [done|]. by right.
Qed.

(** X4.  Whatever the request and the state of the directory, failures
    included, [UploadAppendingHandler] creates no file and rewrites none:
    apart from the marker of the upload it addresses, a file that is absent
    stays absent, and a file that is present keeps its bytes as a prefix of
    what it holds afterwards. *)
Theorem append_is_append_only s r name :
  name ≠ marker (request_id r) →
  match files (disk s) !! name with
  | Some old =>
      ∃ extra,
        files (disk (UploadAppendingHandler r s).2) !! name = Some (old ++ extra)%list
  | None => files (disk (UploadAppendingHandler r s).2) !! name = None
  end.
Proof.
  intros Hne.
  destruct (append_files s r) as [-> | (stored & Hstored & [-> | ->])].
  - destruct (files (disk s) !! name); [|done]. exists []. by rewrite app_nil_r.
  - destruct (decide (name = request_id r)) as [->|Hid].
    + rewrite Hstored, lookup_insert_eq. eauto.
    + rewrite lookup_insert_ne by done.
      destruct (files (disk s) !! name); [|done]. exists []. by rewrite app_nil_r.
  - rewrite lookup_delete_ne by done.
    destruct (decide (name = request_id r)) as [->|Hid].
    + rewrite Hstored, lookup_insert_eq. eauto.
    + rewrite lookup_insert_ne by done.
      destruct (files (disk s) !! name); [|done]. exists []. by rewrite app_nil_r.
Qed.

(** ** Queries *)

Lemma head_run_present s r stored :
  let id := request_id r in
  status (w s) = None →
  files (disk s) !! id = Some stored →
  load_ok (disk s) id →
  OffsetRetrievingHandler r s =
    (None,
     {| disk := traced [EvOpen id; EvSeek id; EvStat (marker id); EvClose id] (disk s);
        w := answered http.StatusNoContent
               (upload_headers (negb (incomplete (disk s) id))
                  (Z.of_nat (length stored)) (header (w s)))
               (body (w s)) (w s) |}).
Proof.
  intros id Hfresh Hf Hok.
  unfold OffsetRetrievingHandler. fold (request_id r). fold id.
  rewrite (bind_run _ _ _ _ _ (loadUpload_present s id stored Hf Hok)).
  cbn [negb]. destruct s as [d rw]. cbn in Hfresh. run.
  destruct (incomplete d id); cbn; rewrite Hfresh; cbn; world_eq.
Qed.

Lemma head_run_not_found s r :
  let id := request_id r in
  status (w s) = None →
  files (disk s) !! id = None →
  os.is_dir_name id = false →
  faults (disk s) OpOpen id = false →
  OffsetRetrievingHandler r s =
    (None,
     {| disk := traced [EvOpen id] (disk s);
        w := answered http.StatusNotFound (header (w s))
               (body (w s) +:+ "upload not found" +:+ LF) (w s) |}).
Proof.
  intros id Hfresh Hf Hd Ho.
  unfold OffsetRetrievingHandler. fold (request_id r). fold id.
  rewrite (bind_run _ _ _ _ _ (loadUpload_absent s id Hf Hd Ho)).
  destruct s as [d rw]. cbn in Hfresh. run. rewrite Hfresh. cbn. world_eq.
Qed.

(** X1.  A HEAD for an upload that exists, when no call fails, is answered
    204 without a body; [Upload-Offset] is the length of the stored bytes and
    [Upload-Complete] is [?1] exactly when the marker is absent.  The file is
    opened, measured and closed, and nothing is written. *)
Theorem head_reports_store s r stored :
  let id := request_id r in
  status (w s) = None →
  files (disk s) !! id = Some stored →
  load_ok (disk s) id →
  let '(err, s') := OffsetRetrievingHandler r s in
  err = None
  ∧ status (w s') = Some http.StatusNoContent
  ∧ body (w s') = body (w s)
  ∧ sent_header (w s') !! "Upload-Offset"
    = Some (strconv.FormatInt (Z.of_nat (length stored)))
  ∧ sent_header (w s') !! "Upload-Complete"
    = Some (if incomplete (disk s) id then "?0" else "?1")
  ∧ files (disk s') = files (disk s)
  ∧ trace (disk s')
    = (trace (disk s) ++ [EvOpen id; EvSeek id; EvStat (marker id); EvClose id])%list.
Proof.
  intros id Hfresh Hf Hok.
  rewrite (head_run_present s r stored Hfresh Hf Hok). cbn.
  split_and!; try done.
  - unfold upload_headers. by rewrite lookup_insert_eq.
  - unfold upload_headers. rewrite lookup_insert_ne, lookup_insert_eq by done.
    fold id. by destruct (incomplete (disk s) id).
Qed.

Lemma head_reports_store_witness :
  let '(err, s') := OffsetRetrievingHandler head_u1 (world_u1 false abc) in
  err = None
  ∧ status (w s') = Some 204
  ∧ sent_header (w s') !! "Upload-Offset" = Some "3"
  ∧ sent_header (w s') !! "Upload-Complete" = Some "?0".
Proof.
  pose proof (head_reports_store (world_u1 false abc) head_u1 abc
                eq_refl eq_refl (conj eq_refl (conj eq_refl eq_refl))) as H.
  destruct (OffsetRetrievingHandler head_u1 (world_u1 false abc)) as [err s'].
  destruct H as (He & Hs & _ & Ho & Hc & _).
  split_and!; assumption.
Defined.

(** X2.  A HEAD or a PATCH for an id that has no byte storage makes one call
    on the directory, the attempt to open the file, whatever the header and
    the body of the request: the body is not read and nothing is created.  If
    the open fails because the file does not exist, the handler writes the
    status 404 with no upload field in the header and hands the text ["upload
    not found"] to [w.Write].  If it fails otherwise (the id names a
    directory, or the call is refused), the error is returned and no response
    is written. *)
Theorem unknown_id_not_found s r :
  let id := request_id r in
  status (w s) = None →
  files (disk s) !! id = None →
  OffsetRetrievingHandler r s = UploadAppendingHandler r s
  ∧ let '(err, s') := UploadAppendingHandler r s in
    files (disk s') = files (disk s)
    ∧ trace (disk s') = (trace (disk s) ++ [EvOpen id])%list
    ∧ if faults (disk s) OpOpen id || os.is_dir_name id then
        err = Some ErrIO
        ∧ w s' = w s
      else
        err = None
        ∧ status (w s') = Some http.StatusNotFound
        ∧ body (w s') = body (w s) +:+ "upload not found" +:+ LF
        ∧ sent_header (w s') = header (w s).
Proof.
  intros id Hfresh Hf.
  destruct (faults (disk s) OpOpen id || os.is_dir_name id) eqn:Hopen.
  { unfold OffsetRetrievingHandler, UploadAppendingHandler, loadUpload.
    fold (request_id r). fold id. run. by rewrite Hopen. }
  apply orb_false_elim in Hopen as [Ho Hd].
  rewrite (head_run_not_found s r Hfresh Hf Hd Ho).
  by rewrite (append_run_not_found s r Hfresh Hf Hd Ho).
Qed.

Lemma unknown_id_not_found_witness :
  let r := patch_u1 [("Upload-Offset", "0"); ("Upload-Complete", "?1")] abc in
  let '(err, s') := UploadAppendingHandler r empty_world in
  err = None ∧ status (w s') = Some 404 ∧ files (disk s') = ∅.
Proof.
  destruct (unknown_id_not_found empty_world
              (patch_u1 [("Upload-Offset", "0"); ("Upload-Complete", "?1")] abc)
              eq_refl eq_refl) as [_ H].
  cbn zeta.
  destruct (UploadAppendingHandler _ _) as [err s'].
  destruct H as (Hf & _ & He & Hs & _).
  split_and!; assumption.
Defined.

(** ** Methods that are no upload operation *)

(** X10.  For a method other than POST, HEAD and PATCH, [ServeHTTP] makes no
    call on the directory and returns [nil]; it answers 200 to OPTIONS and
    405 to anything else, DELETE included, without a body, and the header
    that goes out is the CORS fields on top of what was there. *)
Theorem other_methods_touch_no_storage s id r :
  status (w s) = None →
  Method r ≠ "POST" →
  Method r ≠ "HEAD" →
  Method r ≠ "PATCH" →
  let '(err, s') := ServeHTTP id r s in
  err = None
  ∧ disk s' = disk s
  ∧ status (w s')
    = Some (if String.eqb (Method r) "OPTIONS" then http.StatusOK
            else http.StatusMethodNotAllowed)
  ∧ body (w s') = body (w s)
  ∧ sent_header (w s') = cors_header (header (w s)).
Proof.
  intros Hfresh H1 H2 H3. rewrite ServeHTTP_with_cors.
  apply String.eqb_neq in H1, H2, H3. rewrite H1, H2, H3.
  destruct s as [d rw]. cbn in Hfresh.
  destruct (String.eqb (Method r) "OPTIONS"); unfold with_cors; run;
    rewrite Hfresh; done.
Qed.

Lemma other_methods_touch_no_storage_witness :
  let r := {| Method := "DELETE"; Host := "example.org"; Path := "/files/u1";
              TLS := false; Header := ∅;
              Body := {| data := []; broken := false |} |} in
  let '(err, s') := ServeHTTP "u2" r (world_u1 false abc) in
  err = None
  ∧ disk s' = disk_u1 false abc
  ∧ status (w s') = Some 405.
Proof.
  cbn zeta.
  pose proof (other_methods_touch_no_storage (world_u1 false abc) "u2"
                {| Method := "DELETE"; Host := "example.org"; Path := "/files/u1";
                   TLS := false; Header := ∅;
                   Body := {| data := []; broken := false |} |} eq_refl) as H.
  destruct (ServeHTTP _ _ _) as [err s'].
  destruct H as (He & Hd & Hs & _); [discriminate..|].
  split_and!; assumption.
Defined.

Lemma cors_on_every_response_witness :
  let s' := (ServeHTTP "u2" (patch_u1 [("Upload-Offset", "0")] xy) (world_u1 false abc)).2 in
  has_cors (sent_header (w s')).
Proof.
  destruct (cors_on_every_response (world_u1 false abc) "u2"
              (patch_u1 [("Upload-Offset", "0")] xy) eq_refl) as (_ & H & _).
  apply H. discriminate.
Defined.

(** ** What the server reports and what it accepts *)

Lemma next_request_fresh s : status (w (next_request s)) = None.
Proof. reflexivity. Qed.

(** X6.  [getUploadOffset] and [getUploadComplete] read back what
    [setUploadHeaders] wrote: a request that carries the two fields as a
    response holds them after [setUploadHeaders(w, isComplete, offset)]
    yields [offset], successfully, and [isComplete], for every offset that
    fits [int]. *)
Theorem upload_headers_round_trip s r isComplete offset :
  (strconv.min_int ≤ offset ≤ strconv.max_int)%Z →
  let h := header (w (setUploadHeaders isComplete offset s).2) in
  Header r !! "Upload-Offset" = h !! "Upload-Offset" →
  Header r !! "Upload-Complete" = h !! "Upload-Complete" →
  getUploadOffset r = (offset, true) ∧ getUploadComplete r = isComplete.
Proof.
  intros Hrange h Ho Hc.
  assert (h = upload_headers isComplete offset (header (w s))) as ->.
  { subst h. destruct s as [d rw]. unfold setUploadHeaders. run.
    by destruct isComplete. }
  unfold upload_headers in *.
  rewrite lookup_insert_eq in Ho.
  rewrite lookup_insert_ne, lookup_insert_eq in Hc by done.
  unfold getUploadOffset, getUploadComplete, http.Get. rewrite Ho, Hc. cbn.
  rewrite (Atoi_FormatInt offset Hrange). by destruct isComplete.
Qed.

Lemma upload_headers_round_trip_witness :
  getUploadOffset (patch_u1 [("Upload-Offset", "42"); ("Upload-Complete", "?1")] [])
  = (42, true)
  ∧ getUploadComplete (patch_u1 [("Upload-Offset", "42"); ("Upload-Complete", "?1")] [])
    = true.
Proof.
  apply (upload_headers_round_trip empty_world
           (patch_u1 [("Upload-Offset", "42"); ("Upload-Complete", "?1")] []) true 42);
    [ unfold strconv.min_int, strconv.max_int; lia | reflexivity | reflexivity ].
Defined.

(** X5.  Resuming works: when a HEAD has reported the offset of an
    incomplete upload, a PATCH for the same id that sends this value back in
    [Upload-Offset] is accepted, whatever else it carries: it is answered 201,
    its body is stored behind the bytes that were there, and the offset it
    reports is the sum of the two lengths. *)
Theorem resume_at_reported_offset s r1 r2 stored :
  let id := request_id r1 in
  request_id r2 = id →
  status (w s) = None →
  files (disk s) !! id = Some stored →
  incomplete (disk s) id = true →
  load_ok (disk s) id →
  faults (disk s) OpRemove (marker id) = false →
  broken (Body r2) = false →
  (Z.of_nat (length stored) ≤ strconv.max_int)%Z →
  let s1 := (OffsetRetrievingHandler r1 s).2 in
  Header r2 !! "Upload-Offset" = sent_header (w s1) !! "Upload-Offset" →
  let '(err, s2) := UploadAppendingHandler r2 (next_request s1) in
  err = None
  ∧ append_outcome (w s2) = Some Appended
  ∧ files (disk s2) !! id = Some (stored ++ data (Body r2))%list
  ∧ sent_header (w s2) !! "Upload-Offset"
    = Some (strconv.FormatInt
              (Z.of_nat (length stored) + Z.of_nat (length (data (Body r2))))).
Proof.
  intros id Hid Hfresh Hf Hi Hok Hr Hb Hmax s1. subst s1.
  rewrite (head_run_present s r1 stored Hfresh Hf Hok). cbn [snd w sent_header answered].
  unfold upload_headers at 1. rewrite lookup_insert_eq. intros Ho.
  assert (getUploadOffset r2 = (Z.of_nat (length stored), true)) as Hc.
  { unfold getUploadOffset, http.Get. rewrite Ho. cbn.
    rewrite Atoi_FormatInt; [done|]. unfold strconv.min_int. lia. }
  fold id.
  set (s1 := next_request _).
  assert (files (disk s1) !! request_id r2 = Some stored) as Hf1 by (by rewrite Hid).
  assert (incomplete (disk s1) (request_id r2) = true) as Hi1 by (by rewrite Hid).
  assert (load_ok (disk s1) (request_id r2)) as Hok1 by (by rewrite Hid).
  assert (faults (disk s1) OpRemove (marker (request_id r2)) = false) as Hr1
    by (by rewrite Hid).
  rewrite (append_run_appended s1 r2 eq_refl stored Hf1 Hok1 Hc Hi1 Hb Hr1).
  cbn. rewrite Hid. split_and!; try done.
  pose proof (marker_neq id).
  destruct (getUploadComplete r2); cbn;
    by rewrite ?lookup_delete_ne, lookup_insert_eq.
Qed.

Lemma resume_at_reported_offset_witness :
  let s1 := (OffsetRetrievingHandler head_u1 (world_u1 false abc)).2 in
  let '(err, s2) :=
    UploadAppendingHandler (patch_u1 [("Upload-Offset", "3")] xy) (next_request s1) in
  err = None
  ∧ append_outcome (w s2) = Some Appended
  ∧ files (disk s2) !! "u1" = Some [Byte.x61; Byte.x62; Byte.x63; Byte.x78; Byte.x79]
  ∧ sent_header (w s2) !! "Upload-Offset" = Some "5".
Proof.
  cbn zeta.
  pose proof (resume_at_reported_offset (world_u1 false abc) head_u1
                (patch_u1 [("Upload-Offset", "3")] xy) abc
                eq_refl eq_refl eq_refl eq_refl (conj eq_refl (conj eq_refl eq_refl))
                eq_refl eq_refl) as H.
  cbn zeta in H.
  destruct (UploadAppendingHandler _ _) as [err s2].
  destruct H as (He & Ho & Hf & Hh); [unfold strconv.max_int; cbn; lia | reflexivity |].
  split_and!; assumption.
Defined.

(** ** A query after a change *)

(** X7.  What a PATCH reports is what is stored: when a PATCH for an
    existing upload is answered 409, 200 or 201, the [Upload-Offset] it sends
    is the length of the bytes stored for the id when it returns, and a HEAD
    for the id that follows sends the same [Upload-Offset] and the same
    [Upload-Complete]. *)
Theorem head_after_append_agrees s r r' stored c :
  let id := request_id r in
  request_id r' = id →
  status (w s) = None →
  files (disk s) !! id = Some stored →
  load_ok (disk s) id →
  faults (disk s) OpRemove (marker id) = false →
  broken (Body r) = false →
  getUploadOffset r = (c, true) →
  let s1 := (UploadAppendingHandler r s).2 in
  let s2 := (OffsetRetrievingHandler r' (next_request s1)).2 in
  (∃ stored1,
     files (disk s1) !! id = Some stored1
     ∧ sent_header (w s1) !! "Upload-Offset"
       = Some (strconv.FormatInt (Z.of_nat (length stored1))))
  ∧ status (w s2) = Some http.StatusNoContent
  ∧ sent_header (w s2) !! "Upload-Offset" = sent_header (w s1) !! "Upload-Offset"
  ∧ sent_header (w s2) !! "Upload-Complete" = sent_header (w s1) !! "Upload-Complete".
Proof.
  intros id Hid Hfresh Hf Hok Hr Hb Hc. cbn zeta.
  pose proof (marker_neq id) as Hne.
  assert (∀ s1 stored1,
            files (disk s1) !! id = Some stored1 →
            faults (disk s1) = faults (disk s) →
            sent_header (w s1) !! "Upload-Offset"
              = Some (strconv.FormatInt (Z.of_nat (length stored1))) →
            sent_header (w s1) !! "Upload-Complete"
              = Some (if incomplete (disk s1) id then "?0" else "?1") →
            (∃ stored1,
               files (disk s1) !! id = Some stored1
               ∧ sent_header (w s1) !! "Upload-Offset"
                 = Some (strconv.FormatInt (Z.of_nat (length stored1))))
            ∧ status (w (OffsetRetrievingHandler r' (next_request s1)).2)
              = Some http.StatusNoContent
            ∧ sent_header (w (OffsetRetrievingHandler r' (next_request s1)).2)
                !! "Upload-Offset"
              = sent_header (w s1) !! "Upload-Offset"
            ∧ sent_header (w (OffsetRetrievingHandler r' (next_request s1)).2)
                !! "Upload-Complete"
              = sent_header (w s1) !! "Upload-Complete") as Hhead.
  { intros s1 stored1 Hf1 Hfaults Ho1 Hc1. split; [eauto|].
    assert (load_ok (disk (next_request s1)) (request_id r')) as Hok1.
    { rewrite Hid. unfold load_ok in *. cbn. by rewrite Hfaults. }
    assert (files (disk (next_request s1)) !! request_id r' = Some stored1) as Hf2
      by (by rewrite Hid).
    rewrite (head_run_present (next_request s1) r' stored1 eq_refl Hf2 Hok1).
    cbn. rewrite Hid, Ho1, Hc1. unfold upload_headers.
    rewrite lookup_insert_eq, lookup_insert_ne, lookup_insert_eq by done.
    split_and!; try done. by destruct (incomplete (disk s1) id). }
  destruct (Z.eqb_spec c (Z.of_nat (length stored))) as [->|Hdiff].
  - destruct (incomplete (disk s) id) eqn:Hi.
    + destruct (incomplete_true _ _ Hi) as [mk Hmk].
      rewrite (append_run_appended s r Hfresh stored Hf Hok Hc Hi Hb Hr).
      cbn [snd]. fold id.
      apply (Hhead _ (stored ++ data (Body r))%list); cbn.
      * destruct (getUploadComplete r); cbn;
          by rewrite ?lookup_delete_ne, lookup_insert_eq.
      * done.
      * unfold upload_headers. rewrite lookup_insert_eq, length_app. do 2 f_equal. lia.
      * unfold upload_headers, incomplete.
        rewrite lookup_insert_ne, lookup_insert_eq by done.
        destruct (getUploadComplete r); cbn.
        -- by rewrite lookup_insert_ne, Hmk.
        -- by rewrite lookup_delete_eq.
    + rewrite (append_run_complete s r Hfresh stored Hf Hok Hc Hi).
      cbn [snd]. fold id.
      apply (Hhead _ stored); cbn; try done.
      * unfold upload_headers. by rewrite lookup_insert_eq.
      * unfold upload_headers, incomplete in *.
        rewrite lookup_insert_ne, lookup_insert_eq by done. cbn.
        by destruct (files (disk s) !! marker id).
  - rewrite (append_run_conflict s r Hfresh stored Hf Hok c Hc Hdiff).
    cbn [snd]. fold id.
    apply (Hhead _ stored); cbn; try done.
    + unfold upload_headers. by rewrite lookup_insert_eq.
    + unfold upload_headers, incomplete.
      rewrite lookup_insert_ne, lookup_insert_eq by done. cbn.
      by destruct (files (disk s) !! marker id).
Qed.

Lemma head_after_append_agrees_witness :
  let s1 := (UploadAppendingHandler (patch_u1 [("Upload-Offset", "3")] xy)
               (world_u1 false abc)).2 in
  let s2 := (OffsetRetrievingHandler head_u1 (next_request s1)).2 in
  sent_header (w s1) !! "Upload-Offset" = Some "5"
  ∧ sent_header (w s2) !! "Upload-Offset" = sent_header (w s1) !! "Upload-Offset"
  ∧ sent_header (w s2) !! "Upload-Complete" = sent_header (w s1) !! "Upload-Complete".
Proof.
  destruct (head_after_append_agrees (world_u1 false abc)
              (patch_u1 [("Upload-Offset", "3")] xy) head_u1 abc 3
              eq_refl eq_refl eq_refl (conj eq_refl (conj eq_refl eq_refl))
              eq_refl eq_refl eq_refl) as (_ & _ & Ho & Hc).
  split_and!; [reflexivity | exact Ho | exact Hc].
Defined.

(** X8.  What a creation reports is what is stored: after a creation that
    returns [nil], a HEAD for the new id is answered 204 with the
    [Upload-Offset] and the [Upload-Complete] that the creation put into its
    response. *)
Theorem head_after_create_agrees s id r r' :
  request_id r' = id →
  status (w s) = None →
  (UploadCreationHandler id r s).1 = None →
  faults (disk s) OpStat (marker id) = false →
  let s1 := (UploadCreationHandler id r s).2 in
  let s2 := (OffsetRetrievingHandler r' (next_request s1)).2 in
  status (w s2) = Some http.StatusNoContent
  ∧ sent_header (w s2) !! "Upload-Offset" = header (w s1) !! "Upload-Offset"
  ∧ sent_header (w s2) !! "Upload-Complete" = header (w s1) !! "Upload-Complete".
Proof.
  intros Hid Hfresh Hnil Hs s1 s2. apply create_success in Hnil.
  pose proof Hnil as (Hd & Ho & _).
  subst s1 s2. rewrite (create_run s id r Hnil Hfresh). cbn [snd].
  set (s1 := next_request _).
  assert (files (disk s1) !! request_id r' = Some (created_content (disk s) id r)) as Hf1.
  { rewrite Hid. apply created_files_id. }
  assert (load_ok (disk s1) (request_id r')) as Hok1 by (by rewrite Hid).
  rewrite (head_run_present s1 r' _ eq_refl Hf1 Hok1). cbn.
  rewrite created_header_offset, created_header_complete. unfold upload_headers.
  rewrite lookup_insert_eq, lookup_insert_ne, lookup_insert_eq by done.
  split_and!; try done.
  unfold incomplete. cbn. rewrite Hid, created_files_marker.
  by destruct (getUploadComplete r).
Qed.

Lemma head_after_create_agrees_witness :
  let s1 := (UploadCreationHandler "u1" (post_files [("Upload-Complete", "?1")] abc)
               empty_world).2 in
  let s2 := (OffsetRetrievingHandler head_u1 (next_request s1)).2 in
  status (w s2) = Some 204
  ∧ sent_header (w s2) !! "Upload-Offset" = Some "3"
  ∧ sent_header (w s2) !! "Upload-Complete" = Some "?1".
Proof.
  destruct (head_after_create_agrees empty_world "u1"
              (post_files [("Upload-Complete", "?1")] abc) head_u1
              eq_refl eq_refl eq_refl eq_refl) as (Hs & Ho & Hc).
  split_and!; [exact Hs | exact Ho | exact Hc].
Defined.

(** ** When a call fails *)

(** X11.  A creation whose copy of the body breaks off returns the error
    without rolling back: the bytes that arrived are stored under the id, the
    marker is in place, and the file is closed.  The response has its
    [Location] but no status, and its upload fields are as they were. *)
Theorem create_copy_failure_keeps_bytes s id r :
  status (w s) = None →
  os.is_dir_name id = false →
  faults (disk s) OpOpen id = false →
  faults (disk s) OpWriteFile (marker id) = false →
  broken (Body r) = true →
  let '(err, s') := UploadCreationHandler id r s in
  err = Some ErrIO
  ∧ files (disk s') !! id = Some (created_content (disk s) id r)
  ∧ files (disk s') !! marker id = Some []
  ∧ trace (disk s')
    = (trace (disk s)
       ++ [EvOpen id; EvWriteFile (marker id);
           EvWrite id (length (data (Body r))); EvClose id])%list
  ∧ status (w s') = None
  ∧ header (w s') !! "Location" = Some (getUrl r +:+ id)
  ∧ header (w s') !! "Upload-Offset" = header (w s) !! "Upload-Offset"
  ∧ header (w s') !! "Upload-Complete" = header (w s) !! "Upload-Complete".
Proof.
  intros Hfresh Hd Ho Hw Hb.
  pose proof (marker_neq id) as Hne.
  unfold UploadCreationHandler, created_content. fold (marker id). fold (interop r).
  destruct s as [d [h inf st sh b]]. cbn in *. subst st.
  run. rewrite Ho, Hd. cbn.
  destruct (files d !! id) as [old|] eqn:Hf; cbn; rewrite Hw; cbn;
    destruct (interop r); cbn;
    rewrite lookup_insert_ne, ?Hf, ?lookup_insert_eq, Hb by done; cbn;
    rewrite <- ?app_assoc; cbn;
    split_and!; try done;
    by rewrite ?lookup_delete_ne, ?lookup_insert_eq, ?lookup_insert_ne,
         ?lookup_insert_eq by done.
Qed.

Lemma create_copy_failure_keeps_bytes_witness :
  let r := {| Method := "POST"; Host := "example.org"; Path := "/files"; TLS := false;
              Header := ∅; Body := {| data := xy; broken := true |} |} in
  let '(err, s') := UploadCreationHandler "u1" r empty_world in
  err = Some ErrIO
  ∧ files (disk s') !! "u1" = Some xy
  ∧ files (disk s') !! "u1.incomplete" = Some [].
Proof.
  cbn zeta.
  pose proof (create_copy_failure_keeps_bytes empty_world "u1"
                {| Method := "POST"; Host := "example.org"; Path := "/files";
                   TLS := false; Header := ∅;
                   Body := {| data := xy; broken := true |} |}
                eq_refl eq_refl eq_refl eq_refl eq_refl) as H.
  destruct (UploadCreationHandler _ _ _) as [err s'].
  destruct H as (He & Hf & Hm & _).
  split_and!; assumption.
Defined.

(** X12.  An append whose copy of the body breaks off returns the error
    without rolling back and without a response: the bytes that arrived are
    stored behind the old ones, the marker stays, and the file is closed.  A
    HEAD that follows reports the upload as incomplete, at the old offset
    plus the number of bytes that arrived. *)
Theorem append_copy_failure_keeps_bytes s r r' stored :
  let id := request_id r in
  request_id r' = id →
  status (w s) = None →
  files (disk s) !! id = Some stored →
  load_ok (disk s) id →
  getUploadOffset r = (Z.of_nat (length stored), true) →
  incomplete (disk s) id = true →
  broken (Body r) = true →
  let '(err, s') := UploadAppendingHandler r s in
  err = Some ErrIO
  ∧ files (disk s') = <[id := (stored ++ data (Body r))%list]> (files (disk s))
  ∧ trace (disk s')
    = (trace (disk s)
       ++ [EvOpen id; EvSeek id; EvStat (marker id);
           EvWrite id (length (data (Body r))); EvClose id])%list
  ∧ w s' = w s
  ∧ (let s2 := (OffsetRetrievingHandler r' (next_request s')).2 in
     sent_header (w s2) !! "Upload-Offset"
       = Some (strconv.FormatInt
                 (Z.of_nat (length stored) + Z.of_nat (length (data (Body r)))))
     ∧ sent_header (w s2) !! "Upload-Complete" = Some "?0").
Proof.
  intros id Hid Hfresh Hf Hok Hc Hi Hb.
  pose proof (marker_neq id) as Hne.
  destruct (incomplete_true _ _ Hi) as [mk Hmk].
  assert (UploadAppendingHandler r s =
            (Some ErrIO,
             on_disk (λ d, traced [EvOpen id; EvSeek id; EvStat (marker id);
                                   EvWrite id (length (data (Body r))); EvClose id]
                             (set_files (<[id := (stored ++ data (Body r))%list]>
                                           (files d)) d)) s)) as ->.
  { unfold UploadAppendingHandler. fold (request_id r). fold id.
    rewrite (bind_run _ _ _ _ _ (loadUpload_present s id stored Hf Hok)).
    cbn [negb]. rewrite Hc, Z.eqb_refl, Hi. cbn [negb].
    destruct s as [d rw]. cbn in *. run. rewrite Hf, Hb. cbn.
    rewrite write_at_end. unfold on_disk. world_eq. }
  destruct s as [d rw]. cbn. do 4 (split; [done|]).
  set (s1 := next_request _).
  assert (files (disk s1) !! request_id r' = Some (stored ++ data (Body r))%list) as Hf1.
  { rewrite Hid. cbn. by rewrite lookup_insert_eq. }
  assert (load_ok (disk s1) (request_id r')) as Hok1 by (by rewrite Hid).
  rewrite (head_run_present s1 r' _ eq_refl Hf1 Hok1). cbn.
  unfold upload_headers, incomplete. rewrite Hid. cbn in *.
  split.
  - rewrite lookup_insert_eq, length_app. do 2 f_equal. lia.
  - rewrite lookup_insert_ne, lookup_insert_eq by done.
    by rewrite lookup_insert_ne, Hmk.
Qed.

Lemma append_copy_failure_keeps_bytes_witness :
  let r := {| Method := "PATCH"; Host := "example.org"; Path := "/files/u1";
              TLS := false; Header := {[ "Upload-Offset" := "3" ]};
              Body := {| data := xy; broken := true |} |} in
  let '(err, s') := UploadAppendingHandler r (world_u1 false abc) in
  err = Some ErrIO
  ∧ files (disk s') !! "u1" = Some [Byte.x61; Byte.x62; Byte.x63; Byte.x78; Byte.x79]
  ∧ files (disk s') !! "u1.incomplete" = Some [].
Proof.
  cbn zeta.
  pose proof (append_copy_failure_keeps_bytes (world_u1 false abc)
                {| Method := "PATCH"; Host := "example.org"; Path := "/files/u1";
                   TLS := false; Header := {[ "Upload-Offset" := "3" ]};
                   Body := {| data := xy; broken := true |} |}
                head_u1 abc
                eq_refl eq_refl eq_refl (conj eq_refl (conj eq_refl eq_refl))
                eq_refl eq_refl eq_refl) as H.
  destruct (UploadAppendingHandler _ _) as [err s'].
  destruct H as (He & Hf & _).
  split_and!; [exact He | by rewrite Hf | by rewrite Hf].
Defined.

(** X13.  If the marker of a new upload cannot be written, the creation
    returns the error and leaves the empty byte storage it has allocated,
    without marker and without [Location]; a HEAD for the id then reports a
    complete upload of offset 0. *)
Theorem marker_failure_leaves_complete_upload s id r r' :
  request_id r' = id →
  files (disk s) !! id = None →
  files (disk s) !! marker id = None →
  os.is_dir_name id = false →
  faults (disk s) OpOpen id = false →
  faults (disk s) OpWriteFile (marker id) = true →
  faults (disk s) OpStat (marker id) = false →
  let '(err, s') := UploadCreationHandler id r s in
  err = Some ErrIO
  ∧ files (disk s') = <[id := []]> (files (disk s))
  ∧ w s' = w s
  ∧ (let s2 := (OffsetRetrievingHandler r' (next_request s')).2 in
     status (w s2) = Some http.StatusNoContent
     ∧ sent_header (w s2) !! "Upload-Offset" = Some "0"
     ∧ sent_header (w s2) !! "Upload-Complete" = Some "?1").
Proof.
  intros Hid Hf Hm Hd Ho Hw Hs.
  pose proof (marker_neq id) as Hne.
  assert (UploadCreationHandler id r s =
            (Some ErrIO,
             on_disk (λ d, traced [EvOpen id; EvWriteFile (marker id); EvClose id]
                             (set_files (<[id := []]> (files d)) d)) s)) as ->.
  { unfold UploadCreationHandler. fold (marker id).
    destruct s as [d rw]. cbn in *. run. rewrite Ho, Hd, Hf. cbn. rewrite Hw. cbn.
    unfold on_disk. world_eq. }
  destruct s as [d rw]. cbn. do 3 (split; [done|]).
  set (s1 := next_request _).
  assert (files (disk s1) !! request_id r' = Some []) as Hf1.
  { rewrite Hid. cbn. by rewrite lookup_insert_eq. }
  assert (load_ok (disk s1) (request_id r')) as Hok1 by (by rewrite Hid).
  rewrite (head_run_present s1 r' _ eq_refl Hf1 Hok1). cbn.
  unfold upload_headers, incomplete. rewrite Hid. cbn in *.
  rewrite lookup_insert_eq, lookup_insert_ne, lookup_insert_eq by done.
  by rewrite lookup_insert_ne, Hm.
Qed.

Lemma marker_failure_leaves_complete_upload_witness :
  let s := {| disk := {| files := ∅;
                         faults := λ op name,
                           match op with OpWriteFile => true | _ => false end;
                         trace := [] |};
              w := new_response |} in
  let '(err, s') := UploadCreationHandler "u1" (post_files [] abc) s in
  err = Some ErrIO
  ∧ files (disk s') = {[ "u1" := [] ]}.
Proof.
  cbn zeta.
  pose proof (marker_failure_leaves_complete_upload
                {| disk := {| files := ∅;
                              faults := λ op name,
                                match op with OpWriteFile => true | _ => false end;
                              trace := [] |};
                   w := new_response |}
                "u1" (post_files [] abc) head_u1
                eq_refl eq_refl eq_refl eq_refl eq_refl eq_refl eq_refl) as H.
  destruct (UploadCreationHandler _ _ _) as [err s'].
  destruct H as (He & Hf & _).
  split; [exact He | exact Hf].
Defined.

(** X14.  If looking up the marker fails with an error other than "not
    exist", a HEAD and a PATCH return that error without a response, and the
    file that [loadUpload] has opened is not closed: the calls on the
    directory end with the failed [os.Stat]. *)
Theorem stat_failure_leaves_file_open s r stored :
  let id := request_id r in
  files (disk s) !! id = Some stored →
  os.is_dir_name id = false →
  faults (disk s) OpOpen id = false →
  faults (disk s) OpStat (marker id) = true →
  OffsetRetrievingHandler r s = UploadAppendingHandler r s
  ∧ let '(err, s') := UploadAppendingHandler r s in
    err = Some ErrIO
    ∧ w s' = w s
    ∧ files (disk s') = files (disk s)
    ∧ trace (disk s')
      = (trace (disk s) ++ [EvOpen id; EvSeek id; EvStat (marker id)])%list
    ∧ EvClose id ∉ [EvOpen id; EvSeek id; EvStat (marker id)].
Proof.
  intros id Hf Hd Ho Hs.
  assert (loadUpload id s =
            ((Some (mkFile id (length stored)), true, false,
              Z.of_nat (length stored), Some ErrIO),
             on_disk (traced [EvOpen id; EvSeek id; EvStat (marker id)]) s)) as Hload.
  { unfold loadUpload. run. rewrite Ho, Hd, Hf. cbn. rewrite Hf. cbn.
    fold (marker id). rewrite Hs. cbn. unfold on_disk. world_eq. }
  unfold OffsetRetrievingHandler, UploadAppendingHandler.
  fold (request_id r). fold id.
  rewrite !(bind_run _ _ _ _ _ Hload). cbn.
  split_and!; try done.
  intros Hin. repeat (apply elem_of_cons in Hin as [Hin|Hin]; [done|]).
  by apply elem_of_nil in Hin.
Qed.

Lemma stat_failure_leaves_file_open_witness :
  let s := {| disk := faulty_disk_u1 false abc
                        (λ op name, match op with OpStat => true | _ => false end);
              w := new_response |} in
  let '(err, s') := UploadAppendingHandler (patch_u1 [("Upload-Offset", "3")] xy) s in
  err = Some ErrIO
  ∧ trace (disk s') = [EvOpen "u1"; EvSeek "u1"; EvStat "u1.incomplete"].
Proof.
  cbn zeta.
  destruct (stat_failure_leaves_file_open
              {| disk := faulty_disk_u1 false abc
                           (λ op name, match op with OpStat => true | _ => false end);
                 w := new_response |}
              (patch_u1 [("Upload-Offset", "3")] xy) abc
              eq_refl eq_refl eq_refl eq_refl) as [_ H].
  destruct (UploadAppendingHandler _ _) as [err s'].
  destruct H as (He & _ & _ & Ht & _).
  split; [exact He | exact Ht].
Defined.

(** ** The interim response *)

Ltac lookup_fields :=
  repeat first
    [ rewrite lookup_insert_eq | rewrite lookup_delete_eq
    | rewrite lookup_insert_ne by done | rewrite lookup_delete_ne by done ];
  done.

(** X15.  A creation that meets no failure sends the interim response 104
    exactly when the request declares the interop version of the server.  Its
    header holds [Location] and [Upload-Draft-Interop-Version], and has the
    upload fields as they were when the handler was called; the version field
    is taken out of the header again, so the final response is without it. *)
Theorem interim_response s id r :
  create_ok (disk s) id r →
  status (w s) = None →
  let s' := (UploadCreationHandler id r s).2 in
  let declared := http.Get (Header r) "Upload-Draft-Interop-Version" in
  (declared = InteropVersion →
   ∃ h,
     informational (w s') = (informational (w s) ++ [(104, h)])%list
     ∧ h !! "Upload-Draft-Interop-Version" = Some InteropVersion
     ∧ h !! "Location" = Some (getUrl r +:+ id)
     ∧ h !! "Upload-Offset" = header (w s) !! "Upload-Offset"
     ∧ h !! "Upload-Complete" = header (w s) !! "Upload-Complete"
     ∧ header (w s') !! "Upload-Draft-Interop-Version" = None)
  ∧ (declared ≠ InteropVersion →
     informational (w s') = informational (w s)
     ∧ header (w s') !! "Upload-Draft-Interop-Version"
       = header (w s) !! "Upload-Draft-Interop-Version").
Proof.
  intros Hok Hfresh. rewrite (create_run s id r Hok Hfresh). cbn.
  unfold created_header, upload_headers, interop.
  split.
  - intros E. apply String.eqb_eq in E. rewrite E. eexists.
    split_and!; [reflexivity | lookup_fields..].
  - intros E. apply String.eqb_neq in E. rewrite E.
    rewrite app_nil_r. split; [done | lookup_fields].
Qed.

Lemma interim_response_witness :
  let s' := (UploadCreationHandler "u1"
               (post_files [("Upload-Draft-Interop-Version", "4")] abc) empty_world).2 in
  ∃ h, informational (w s') = [(104, h)]
       ∧ h !! "Location" = Some "http://example.org/files/u1"
       ∧ header (w s') !! "Upload-Draft-Interop-Version" = None.
Proof.
  destruct (interim_response empty_world "u1"
              (post_files [("Upload-Draft-Interop-Version", "4")] abc)) as [H _].
  { unfold create_ok. split_and!; reflexivity. }
  { reflexivity. }
  destruct (H eq_refl) as (h & Hi & _ & Hl & _ & _ & Hv).
  exists h. split_and!; [exact Hi | exact Hl | exact Hv].
Defined.

(** ** Paths and ids *)

Lemma string_app_cons c (a b : string) : String c a +:+ b = String c (a +:+ b).
Proof. reflexivity. Qed.

Lemma string_app_nil (b : string) : "" +:+ b = b.
Proof. reflexivity. Qed.

Lemma string_app_assoc (a b c : string) : (a +:+ b) +:+ c = a +:+ (b +:+ c).
Proof.
  induction a as [|x a IH]; [reflexivity|].
  by rewrite !string_app_cons, IH.
Qed.

Lemma Split_nonempty s sep : strings.Split s sep ≠ [].
Proof.
  destruct s as [|c s]; cbn; [done|].
  destruct (Ascii.eqb c sep); [done|]. by destruct (strings.Split s sep).
Qed.

Lemma Split_no_slash s :
  Forall (λ seg, no_slash seg = true) (strings.Split s "/").
Proof.
  induction s as [|c s IH]; cbn.
  - by repeat constructor.
  - destruct (Ascii.eqb c "/") eqn:E.
    + by constructor.
    + destruct (strings.Split s "/") as [|seg segs].
      * repeat constructor. cbn. by rewrite E.
      * inversion IH as [|? ? H1 H2]; subst. constructor; [|done].
        cbn. by rewrite E, H1.
Qed.

Lemma Split_single s : no_slash s = true → strings.Split s "/" = [s].
Proof.
  induction s as [|c s IH]; cbn; [done|].
  intros H. apply andb_prop in H as [Hc Hs].
  apply negb_true_iff in Hc. rewrite Hc, (IH Hs). done.
Qed.

Lemma Split_app_slash p id :
  no_slash id = true →
  strings.Split (p +:+ "/" +:+ id) "/" = (strings.Split p "/" ++ [id])%list.
Proof.
  intros Hid. induction p as [|c p IH].
  - rewrite string_app_nil, string_app_cons, string_app_nil. cbn.
    by rewrite Split_single.
  - rewrite string_app_cons. cbn. rewrite IH. destruct (Ascii.eqb c "/"); [done|].
    pose proof (Split_nonempty p "/").
    by destruct (strings.Split p "/").
Qed.

(** X16.  The id that a HEAD or a PATCH works on, the last segment of the
    path, holds no ["/"].  It can still be [""], ["."] or [".."], which name
    the upload directory or its parent: then both handlers return the error
    of the failed open, change no file and write no response. *)
Theorem request_id_has_no_slash s r :
  let id := request_id r in
  no_slash id = true
  ∧ (os.is_dir_name id = true →
     OffsetRetrievingHandler r s = UploadAppendingHandler r s
     ∧ let '(err, s') := UploadAppendingHandler r s in
       err = Some ErrIO
       ∧ w s' = w s
       ∧ files (disk s') = files (disk s)
       ∧ trace (disk s') = (trace (disk s) ++ [EvOpen id])%list).
Proof.
  intros id. split.
  - unfold id, request_id.
    pose proof (Split_no_slash (Path r)) as H.
    pose proof (Split_nonempty (Path r) "/") as Hne.
    rewrite (app_removelast_last "" Hne) in H.
    apply Forall_app in H as [_ H]. by inversion H.
  - intros Hd.
    unfold OffsetRetrievingHandler, UploadAppendingHandler, loadUpload.
    fold (request_id r). fold id. run. by rewrite Hd, orb_true_r.
Qed.

Lemma request_id_has_no_slash_witness :
  let r := {| Method := "PATCH"; Host := "example.org"; Path := "/files/";
              TLS := false; Header := {[ "Upload-Offset" := "0" ]};
              Body := {| data := xy; broken := false |} |} in
  request_id r = ""
  ∧ let '(err, s') := UploadAppendingHandler r (world_u1 false abc) in
    err = Some ErrIO ∧ files (disk s') = files (disk_u1 false abc).
Proof.
  cbn zeta. split; [reflexivity|].
  destruct (request_id_has_no_slash (world_u1 false abc)
              {| Method := "PATCH"; Host := "example.org"; Path := "/files/";
                 TLS := false; Header := {[ "Upload-Offset" := "0" ]};
                 Body := {| data := xy; broken := false |} |}) as [_ H].
  destruct (H eq_refl) as [_ H'].
  destruct (UploadAppendingHandler _ _) as [err s'].
  destruct H' as (He & _ & Hf & _).
  split; assumption.
Defined.

Lemma suffix_of_app (a b c d : string) :
  a +:+ b = c +:+ d →
  (String.length d ≤ String.length b)%nat →
  ∃ e, b = e +:+ d.
Proof.
  revert c. induction a as [|x a IH]; intros c E Hlen.
  - rewrite string_app_nil in E. by exists c.
  - rewrite string_app_cons in E. destruct c as [|y c].
    + rewrite string_app_nil in E. apply (f_equal String.length) in E. cbn in E.
      rewrite string_length_app in E. lia.
    + rewrite string_app_cons in E. injection E as _ E. by apply (IH c).
Qed.

Lemma last_char_slash s :
  (1 ≤ String.length s)%nat →
  substring (String.length s - 1) 1 s = "/" →
  ∃ q, s = q +:+ "/".
Proof.
  induction s as [|c s IH]; cbn; [lia|]. intros _.
  destruct s as [|c' s'].
  - cbn. intros [= ->]. by exists "".
  - cbn [String.length]. rewrite Nat.sub_0_r. cbn [substring]. intros E.
    destruct IH as [q Hq]; [cbn; lia | |].
    + cbn [String.length]. by rewrite Nat.sub_succ, Nat.sub_0_r.
    + exists (String c q). by rewrite string_app_cons, <- Hq.
Qed.

Lemma getUrl_ends_with_slash r : ∃ g, getUrl r = g +:+ "/".
Proof.
  unfold getUrl.
  destruct (strings.HasSuffix (Path r) "/") eqn:E.
  - unfold strings.HasSuffix in E. apply andb_prop in E as [E1 E2].
    apply Nat.leb_le in E1. apply String.eqb_eq in E2. cbn in E1, E2.
    destruct (last_char_slash (Path r) E1 E2) as [q Hq]. rewrite Hq.
    eexists. by rewrite <- !string_app_assoc.
  - eexists. by rewrite <- !string_app_assoc.
Qed.

(** X17.  The [Location] of a creation leads back to the upload: when the
    path of a later request is an end of that URL which reaches further back
    than the id, and the id holds no ["/"], as a UUID does, the HEAD and the
    PATCH handler work on that id. *)
Theorem location_leads_back r id r' :
  no_slash id = true →
  (∃ pre, getUrl r +:+ id = pre +:+ Path r') →
  (String.length id < String.length (Path r'))%nat →
  request_id r' = id.
Proof.
  intros Hid [pre E] Hlen.
  destruct (getUrl_ends_with_slash r) as [g Hg]. rewrite Hg in E.
  rewrite string_app_assoc in E. symmetry in E.
  destruct (suffix_of_app _ _ _ _ E) as [e He].
  { rewrite string_app_cons, string_app_nil. cbn. lia. }
  unfold request_id. rewrite He, Split_app_slash by done.
  apply last_last.
Qed.

Lemma location_leads_back_witness :
  request_id (patch_u1 [] []) = "u1".
Proof.
  apply (location_leads_back (post_files [] []) "u1" (patch_u1 [] []));
    [ reflexivity | by exists "http://example.org" | cbn; lia ].
Defined.

(** ** What a creation leaves alone *)

Section CreateFrame.
Variables (id name : string) (v : option (list Byte.byte)).
Hypothesis Hid : name ≠ id.
Hypothesis Hmarker : name ≠ marker id.
Let other : World → Prop := λ s, files (disk s) !! name = v.

Lemma OpenFile_other create : keeps other (os.OpenFile id create).
Proof.
  intros s Hs. subst other. run.
  repeat case_match; cbn; by rewrite ?lookup_insert_ne.
Qed.

Lemma WriteFile_other content : keeps other (os.WriteFile (marker id) content).
Proof.
  intros s Hs. subst other. run.
  repeat case_match; cbn; by rewrite ?lookup_insert_ne.
Qed.

Lemma Remove_other : keeps other (os.Remove (marker id)).
Proof.
  intros s Hs. subst other. run.
  repeat case_match; cbn; by rewrite ?lookup_delete_ne.
Qed.

Lemma SeekEnd_other file : keeps other (os.SeekEnd file).
Proof. intros s Hs. subst other. run. by repeat case_match. Qed.

Lemma Close_other file : keeps other (os.Close file).
Proof. intros s Hs. subst other. run. by repeat case_match. Qed.

Lemma Copy_other pos src : keeps other (io.Copy (Some (mkFile id pos)) src).
Proof.
  intros s Hs. subst other. run.
  repeat case_match; cbn; by rewrite ?lookup_insert_ne.
Qed.

Lemma OpenFile_handle create s f :
  (os.OpenFile id create s).1 = Ok f → f = mkFile id 0.
Proof. run. repeat case_match; cbn; congruence. Qed.

Lemma create_other r : keeps other (UploadCreationHandler id r).
Proof.
  intros s Hs. unfold UploadCreationHandler. unfold bind at 1.
  pose proof (OpenFile_other true s Hs) as H1.
  pose proof (OpenFile_handle true s) as H2.
  destruct (os.OpenFile id true s) as [[f|e] s1]; cbn in H1, H2; [|done].
  rewrite (H2 f eq_refl). revert s1 H1.
  change (keeps other
    (defer_Close (Some (mkFile id 0))
       (let* err := os.WriteFile (id +:+ IncompleteExt) [] in
        match err with
        | Some e => ret (Some e)
        | None =>
            let uploadUrl := getUrl r +:+ id in
            let* _ := http.Set_ "Location" uploadUrl in
            let* _ :=
              (if String.eqb (http.Get (Header r) "Upload-Draft-Interop-Version")
                             InteropVersion
               then
                 let* _ := http.Set_ "Upload-Draft-Interop-Version" InteropVersion in
                 let* _ := http.WriteHeader 104 in
                 http.Del "Upload-Draft-Interop-Version"
               else ret tt) in
            let* (file, _, err) := io.Copy (Some (mkFile id 0)) (Body r) in
            match err with
            | Some e => ret (Some e)
            | None =>
                let* (file, offset, err) := os.SeekEnd file in
                match err with
                | Some e => ret (Some e)
                | None =>
                    let isComplete := getUploadComplete r in
                    let* err :=
                      (if isComplete then os.Remove (id +:+ IncompleteExt)
                       else ret None) in
                    match err with
                    | Some e => ret (Some e)
                    | None =>
                        let* _ := setUploadHeaders isComplete offset in
                        ret None
                    end
                end
            end
        end))).
  unfold setUploadHeaders. fold (marker id). unfold other.
  keeps_disk ltac:(first
    [ apply WriteFile_other | apply Remove_other | apply SeekEnd_other
    | apply Close_other | apply Copy_other ]).
Qed.
End CreateFrame.

(** X18.  Whatever the request and the state of the directory, failures
    included, [UploadCreationHandler] touches only the byte storage and the
    marker of the id it was given: every other file is as it was. *)
Theorem create_touches_only_its_upload s id r name :
  name ≠ id →
  name ≠ marker id →
  files (disk (UploadCreationHandler id r s).2) !! name = files (disk s) !! name.
Proof.
  intros H1 H2.
  by apply (create_other id name (files (disk s) !! name) H1 H2 r s).
Qed.

Lemma create_touches_only_its_upload_witness :
  files (disk (UploadCreationHandler "u2" (post_files [] xy) (world_u1 false abc)).2)
    !! "u1" = Some abc.
Proof.
  rewrite (create_touches_only_its_upload (world_u1 false abc) "u2"
             (post_files [] xy) "u1"); [reflexivity | discriminate | discriminate].
Defined.

(** ** What an append leaves alone *)

Lemma append_is_append_only_witness :
  ∃ extra,
    files (disk (UploadAppendingHandler (patch_u1 [("Upload-Offset", "3")] xy)
                   (world_u1 false abc)).2) !! "u1"
    = Some (abc ++ extra)%list.
Proof.
  apply (append_is_append_only (world_u1 false abc)
           (patch_u1 [("Upload-Offset", "3")] xy) "u1").
  discriminate.
Defined.

(** X19.  Completion is not undone by a PATCH: whatever the request, the id
    it addresses and the state of the directory, failures included,
    [UploadAppendingHandler] creates no file, so an upload whose marker is
    absent before the call has no marker after it. *)
Theorem patch_never_uncompletes s r id :
  incomplete (disk s) id = false →
  incomplete (disk (UploadAppendingHandler r s).2) id = false
  ∧ (∀ name,
       files (disk s) !! name = None →
       files (disk (UploadAppendingHandler r s).2) !! name = None).
Proof.
  assert (∀ name,
            files (disk s) !! name = None →
            files (disk (UploadAppendingHandler r s).2) !! name = None) as Hnone.
  { intros name Hn.
    destruct (append_files s r) as [-> | (stored & Hstored & [-> | ->])]; [done|..].
    - rewrite lookup_insert_ne; [done|]. intros <-. congruence.
    - destruct (decide (name = marker (request_id r))) as [->|Hm].
      + by rewrite lookup_delete_eq.
      + rewrite lookup_delete_ne, lookup_insert_ne; [done| |done].
        intros <-. congruence. }
  intros Hi. split; [|exact Hnone].
  apply incomplete_false. apply Hnone. by apply incomplete_false.
Qed.

Lemma patch_never_uncompletes_witness :
  incomplete
    (disk (UploadAppendingHandler (patch_u1 [("Upload-Offset", "3")] xy)
             (world_u1 true abc)).2) "u1" = false.
Proof.
  apply (patch_never_uncompletes (world_u1 true abc)
           (patch_u1 [("Upload-Offset", "3")] xy) "u1").
  reflexivity.
Defined.
